(** * listsample: a bounded recency list on top of a sorted-set store

    Shallow embedding of [lib/listsample] (the batch builder, the DAL
    constructor, [Put], [Get] and [createKey]) together with a model of the
    four sorted-set commands the DAL sends over its connection.

    Conventions.
    - Go [string]s are byte strings: [string] of the Standard Library.
    - Go [int]/[int64] values are [Z]; 64-bit wrap-around is written out
      where the code computes ([sub64]).
    - [time.Time] is the pair (seconds, nanoseconds) since the epoch; only
      [Unix] is ever read by the code.
    - A Go function returning [(T, error)] is a computation in the monad
      [M], which threads the connection's world and stops at the first
      error, keeping the world reached so far.
    - Pointers to [PutBatch] and [PutBatchBuilder] are locations in a
      [heap]; dereferencing a location that holds nothing panics.
    - Logging and metrics calls have no influence on any result and are
      left out. *)

From Stdlib Require Import ZArith Lia String Ascii List OrdersEx.
From Stdlib Require Import DecimalString DecimalZ.
From stdpp Require Import gmap strings list fin_maps sorting.

Local Open Scope Z_scope.

(* ===================================================================== *)
(** * Part I: the embedding                                               *)
(* ===================================================================== *)

(** ** Machine integers and time *)



(** Two's complement reduction of a mathematical integer to [int64]. *)
Definition wrap64 (z : Z) : Z := (z + 2 ^ 63) mod 2 ^ 64 - 2 ^ 63.

(** Go's [a - b] on [int64]. *)
Definition sub64 (a b : Z) : Z := wrap64 (a - b).

(** [time.Time], as far as the package observes it. *)
Record Time : Type := mkTime { sec : Z; nsec : Z }.

(** [t.Unix()]: whole seconds since the epoch; the fraction is dropped. *)
Definition Unix (t : Time) : Z := sec t.

(** The score computed in [Put]:
    [insertScore := maxRedisValue - write.updatedAt.Unix()]. *)
Definition maxRedisValue : Z := 9007199254740992.

Definition insertScore (updatedAt : Time) : Z :=
  sub64 maxRedisValue (Unix updatedAt).


(** ** Errors and results *)

Definition error : Type := string.

Inductive result (A : Type) : Type :=
| Ok (a : A)
| Err (e : error).
Arguments Ok {A} a.
Arguments Err {A} e.

(** ** Defaults of batch_builder.go *)

Definition defaultMaxActiveConnections : Z := 100.
Definition defaultMinIdleConnections : Z := 50.
(** [1 * time.Minute], in nanoseconds. *)
Definition defaultIdleTimeout : Z := 60000000000.
Definition defaultMaxSortedSetBuffer : Z := 100.

(** ** Keys *)

(** [fmt.Sprintf("%s_%s", userID, listID)] *)
Definition createKey (userID listID : string) : string :=
  String.append userID (String "_" listID).

(** Does the byte ['_'] occur in [s]? *)
Fixpoint has_sep (s : string) : bool :=
  match s with
  | EmptyString => false
  | String c s' => if Ascii.eqb c "_" then true else has_sep s'
  end.

(** ** Mutations and batches *)

Record contactDeleteMutation : Type := mkDelete {
  userID : string;
  listID : string;
  contactID : string
}.

(** The Go struct embeds [contactDeleteMutation]; [target] is that
    embedded field. *)
Record contactWriteMutation : Type := mkWrite {
  target : contactDeleteMutation;
  updatedAt : Time
}.

Record PutBatch : Type := mkBatch {
  deletes : list contactDeleteMutation;
  updates : list contactWriteMutation
}.

(** ** The batch builder, on a heap *)

Abbreviation loc := nat.

Record PutBatchBuilder : Type := mkBuilder { batch : loc }.

Record heap : Type := mkHeap {
  batches : list PutBatch;
  builders : list PutBatchBuilder
}.

Definition empty_heap : heap := mkHeap [] [].

(** Heap computations; [None] is a nil-pointer panic. *)
Definition H (A : Type) : Type := heap -> option (A * heap).

Definition hret {A} (a : A) : H A := fun h => Some (a, h).
Definition hbind {A B} (m : H A) (k : A -> H B) : H B :=
  fun h => match m h with
           | Some (a, h') => k a h'
           | None => None
           end.

Definition alloc_batch (pb : PutBatch) : H loc :=
  fun h => Some (length (batches h), mkHeap (batches h ++ [pb]) (builders h)).

Definition alloc_builder (b : PutBatchBuilder) : H loc :=
  fun h => Some (length (builders h), mkHeap (batches h) (builders h ++ [b])).

Definition load_builder (b : loc) : H PutBatchBuilder :=
  fun h => match builders h !! b with
           | Some v => Some (v, h)
           | None => None
           end.

Definition load_batch (p : loc) : H PutBatch :=
  fun h => match batches h !! p with
           | Some v => Some (v, h)
           | None => None
           end.

Definition store_batch (p : loc) (pb : PutBatch) : H unit :=
  fun h => match batches h !! p with
           | Some _ => Some (tt, mkHeap (<[p := pb]> (batches h)) (builders h))
           | None => None
           end.

Definition NewListDeltaBatchBuilder : H loc :=
  hbind (alloc_batch (mkBatch [] [])) (fun p =>
  alloc_builder (mkBuilder p)).

Definition AddUpdate (b : loc) (userID listID contactID : string)
    (updatedAt : Time) : H loc :=
  hbind (load_builder b) (fun bv =>
  hbind (load_batch (batch bv)) (fun pb =>
  hbind (store_batch (batch bv)
           (mkBatch (deletes pb)
              (updates pb ++
                 [mkWrite (mkDelete userID listID contactID) updatedAt])))
        (fun _ => hret b))).

Definition AddDelete (b : loc) (userID listID contactID : string) : H loc :=
  hbind (load_builder b) (fun bv =>
  hbind (load_batch (batch bv)) (fun pb =>
  hbind (store_batch (batch bv)
           (mkBatch (deletes pb ++ [mkDelete userID listID contactID])
              (updates pb)))
        (fun _ => hret b))).

Definition Build (b : loc) : H loc :=
  hbind (load_builder b) (fun bv => hret (batch bv)).

(** A sequence of builder calls, in the order the caller makes them. *)
Inductive call : Type :=
| CallUpdate (userID listID contactID : string) (updatedAt : Time)
| CallDelete (userID listID contactID : string).

Definition do_call (b : loc) (c : call) : H loc :=
  match c with
  | CallUpdate u l m t => AddUpdate b u l m t
  | CallDelete u l m => AddDelete b u l m
  end.

Fixpoint do_calls (b : loc) (cs : list call) : H loc :=
  match cs with
  | [] => hret b
  | c :: cs' => hbind (do_call b c) (fun b' => do_calls b' cs')
  end.

(** [NewListDeltaBatchBuilder().Add...().Add...().Build()], then the
    batch read through the returned pointer. *)
Definition build_batch (cs : list call) : H PutBatch :=
  hbind NewListDeltaBatchBuilder (fun b =>
  hbind (do_calls b cs) (fun b' =>
  hbind (Build b') load_batch)).

(** ** The sorted sets of the backing store

    A sorted set is the sequence of its (member, score) pairs in rank
    order: ascending score, members of equal score in byte-wise
    lexicographic order; a member occurs at most once.  The store keeps no
    empty set: a key whose last member is removed disappears.

    Scores are integers here.  The store holds them as double-precision
    numbers, which are exact for integers of magnitude up to 2^53: every
    score [Put] computes for a time from the epoch on is in that range. *)

Definition entry : Type := string * Z.
Definition member (e : entry) : string := fst e.
Definition score (e : entry) : Z := snd e.
Abbreviation zset := (list entry).

Definition entry_cmp (a b : entry) : comparison :=
  match score a ?= score b with
  | Eq => String_as_OT.compare (member a) (member b)
  | Lt => Lt
  | Gt => Gt
  end.

Definition entry_leb (a b : entry) : bool :=
  match entry_cmp a b with
  | Gt => false
  | _ => true
  end.

Definition entry_le (a b : entry) : Prop := entry_leb a b = true.

Definition members (z : zset) : list string := member <$> z.

Definition zrem (m : string) (z : zset) : zset :=
  filter (fun e => member e ≠ m) z.

Fixpoint zinsert (e : entry) (z : zset) : zset :=
  match z with
  | [] => [e]
  | x :: z' => if entry_leb e x then e :: z else x :: zinsert e z'
  end.

(** Add [m] with score [s], or move it to its new score. *)
Definition zadd (m : string) (s : Z) (z : zset) : zset :=
  zinsert (m, s) (zrem m z).

(** The store's treatment of a rank range [start..stop], the same for
    [ZRANGE] and [ZREMRANGEBYRANK]: both ends are inclusive, negative
    indexes count from the end ([-1] is the last member), the range is
    clamped to the set, and it is empty when it starts after its end or
    beyond the set.  The result is the pair of first and last rank. *)
Definition rank_window (llen start stop : Z) : option (Z * Z) :=
  let start := if start <? 0 then llen + start else start in
  let stop := if stop <? 0 then llen + stop else stop in
  let start := if start <? 0 then 0 else start in
  if (stop <? start) || (llen <=? start) then None
  else Some (start, if llen <=? stop then llen - 1 else stop).

Definition zrange (z : zset) (start stop : Z) : zset :=
  match rank_window (Z.of_nat (length z)) start stop with
  | None => []
  | Some (a, b) => take (Z.to_nat (b - a + 1)) (drop (Z.to_nat a) z)
  end.

Definition zremrangebyrank (z : zset) (start stop : Z) : zset :=
  match rank_window (Z.of_nat (length z)) start stop with
  | None => z
  | Some (a, b) => take (Z.to_nat a) z ++ drop (Z.to_nat (b + 1)) z
  end.

(** A sorted set as the store maintains it. *)
Definition wf_zset (z : zset) : Prop :=
  StronglySorted entry_le z /\ NoDup (members z).

(** ** The store and the commands sent to it

    The store is a separate server; [exec] follows the documented
    behaviour of the four commands the package sends. *)

Definition zset_at (k : string) (d : gmap string zset) : zset :=
  default [] (d !! k).

Definition store_set (k : string) (z : zset) (d : gmap string zset)
    : gmap string zset :=
  match z with
  | [] => delete k d
  | _ => <[k := z]> d
  end.

Definition wf_db (d : gmap string zset) : Prop :=
  forall k z, d !! k = Some z -> wf_zset z.

Inductive command : Type :=
| ZADD (key : string) (sc : Z) (m : string)
| ZREM (key : string) (m : string)
| ZREMRANGEBYRANK (key : string) (start stop : Z)
| ZRANGE (key : string) (start stop : Z).

Inductive reply : Type :=
| Int (n : Z)
| Array (l : list string).

(** What the store does with one command, and what it answers. *)
Definition exec (c : command) (d : gmap string zset)
    : reply * gmap string zset :=
  match c with
  | ZADD k s m =>
      let z := zset_at k d in
      (Int (if bool_decide (m ∈ members z) then 0 else 1),
       store_set k (zadd m s z) d)
  | ZREM k m =>
      let z := zset_at k d in
      (Int (if bool_decide (m ∈ members z) then 1 else 0),
       store_set k (zrem m z) d)
  | ZREMRANGEBYRANK k a b =>
      let z := zset_at k d in
      let z' := zremrangebyrank z a b in
      (Int (Z.of_nat (length z) - Z.of_nat (length z')), store_set k z' d)
  | ZRANGE k a b => (Array (members (zrange (zset_at k d) a b)), d)
  end.

(** ** The connection

    The world seen through one connection: the store's contents, the
    commands sent so far, and the transport's behaviour: [fault n] tells
    whether the [n]-th command sent fails, and with which error.  A failed
    command leaves the store as it was. *)

Record world : Type := mkWorld {
  db : gmap string zset;
  sent : list command;
  fault : nat -> option error
}.

Definition M (A : Type) : Type := world -> result A * world.

Definition ret {A} (a : A) : M A := fun w => (Ok a, w).

Definition bind {A B} (m : M A) (k : A -> M B) : M B :=
  fun w => match m w with
           | (Ok a, w') => k a w'
           | (Err e, w') => (Err e, w')
           end.

Notation "'letM' x ':=' m 'in' k" := (bind m (fun x => k))
  (at level 10, x name, m at level 100, k at level 200).

(** [for _, x := range l { ... }] with [return err] in the body. *)
Fixpoint foldM {A B} (f : A -> B -> M A) (l : list B) (a : A) : M A :=
  match l with
  | [] => ret a
  | x :: l' => letM a' := f a x in foldM f l' a'
  end.

(** [conn.Do(...)] *)
Definition Do (c : command) : M reply :=
  fun w =>
    match fault w (length (sent w)) with
    | Some e => (Err e, mkWorld (db w) (sent w ++ [c]) (fault w))
    | None =>
        let (r, d) := exec c (db w) in
        (Ok r, mkWorld d (sent w ++ [c]) (fault w))
    end.

(** [redis.Strings(reply, err)] on a reply that arrived. *)
Definition Strings (r : reply) : M (list string) :=
  match r with
  | Array l => ret l
  | Int _ => fun w => (Err "redigo: unexpected type for Strings", w)
  end.

(** ** The DAL *)

Inductive MetricLogger : Type :=
| StatsdMetrics
| UserMetrics (id : nat).

Record ClusterOpts : Type := mkOpts {
  MaxActiveConnections : Z;
  MinIdleConnections : Z;
  ConnectionIdleTimeout : Z;
  BoostrapHost : string
}.

Record metricsNodePoolConnection : Type := mkPoolConn {
  pool_metricsLogger : MetricLogger;
  maxIdle : Z;
  idleTimeout : Z;
  maxActive : Z
}.

(** [redisc.Cluster], as configured by [NewDAL]. *)
Record Cluster : Type := mkCluster {
  StartupNodes : list string;
  DialConnectTimeout : Z;
  CreatePool : metricsNodePoolConnection
}.

Record redisDAL : Type := mkDAL {
  metricsLogger : option MetricLogger;
  maxSetSize : Z;
  cluster : option Cluster;
  clusterOpts : option ClusterOpts
}.

(** The zero value [&redisDAL{}]. *)
Definition zero_redisDAL : redisDAL := mkDAL None 0 None None.

Definition NewClusterOptions : ClusterOpts :=
  mkOpts defaultMaxActiveConnections defaultMinIdleConnections
    defaultIdleTimeout "".

Definition WithClusterOptions (clusterOptions : option ClusterOpts)
    : redisDAL -> redisDAL :=
  fun r => mkDAL (metricsLogger r) (maxSetSize r) (cluster r) clusterOptions.

Definition WithMaxSortedBuffer (maxBufferSize : Z) : redisDAL -> redisDAL :=
  fun r => mkDAL (metricsLogger r) maxBufferSize (cluster r) (clusterOpts r).

Definition WithMetricsLogger (logger : option MetricLogger)
    : redisDAL -> redisDAL :=
  fun r => mkDAL logger (maxSetSize r) (cluster r) (clusterOpts r).

(** [for _, opt := range options { opt(r) }] *)
Definition apply_options (options : list (redisDAL -> redisDAL))
    (r : redisDAL) : redisDAL :=
  fold_left (fun acc opt => opt acc) options r.

(** The pool settings and the cluster value [NewDAL] assembles. *)
Definition new_cluster (ml : MetricLogger) (co : ClusterOpts) : Cluster :=
  mkCluster [BoostrapHost co] 5000000000
    (mkPoolConn ml (MinIdleConnections co) (ConnectionIdleTimeout co)
       (MaxActiveConnections co)).

(** [NewDAL]; [refresh] is the outcome of [r.cluster.Refresh()], the
    first contact with the bootstrap host. *)
Definition NewDAL (refresh : Cluster -> option error)
    (options : list (redisDAL -> redisDAL)) : result redisDAL :=
  let r := apply_options options zero_redisDAL in
  match clusterOpts r with
  | None => Err "You must specify clusterOptions via WithClusterOptions"
  | Some co =>
      if String.eqb (BoostrapHost co) ""
      then Err "You must specify the 'BoostrapHost' in the cluster options"
      else
        let ml := match metricsLogger r with
                  | Some l => l
                  | None => StatsdMetrics
                  end in
        let mss := if maxSetSize r =? 0 then defaultMaxSortedSetBuffer
                   else maxSetSize r in
        let cl := new_cluster ml co in
        match refresh cl with
        | Some err => Err err
        | None => Ok (mkDAL (Some ml) mss (Some cl) (Some co))
        end
  end.

(** The options a caller of the package can write down. *)
Inductive dal_option : Type :=
| OptCluster (clusterOptions : option ClusterOpts)
| OptBuffer (maxBufferSize : Z)
| OptMetrics (logger : option MetricLogger).

Definition option_fn (o : dal_option) : redisDAL -> redisDAL :=
  match o with
  | OptCluster co => WithClusterOptions co
  | OptBuffer n => WithMaxSortedBuffer n
  | OptMetrics l => WithMetricsLogger l
  end.

(** The cluster options in force: those of the last [WithClusterOptions],
    none if it was never given or was given nil. *)
Definition supplied_cluster (os : list dal_option) : option ClusterOpts :=
  fold_left (fun acc o => match o with OptCluster co => co | _ => acc end)
    os None.

(** The argument of the last [WithMaxSortedBuffer], if there is one. *)
Definition supplied_buffer (os : list dal_option) : option Z :=
  fold_left (fun acc o => match o with OptBuffer n => Some n | _ => acc end)
    os None.

(** The logger of the last [WithMetricsLogger], if any and not nil. *)
Definition supplied_logger (os : list dal_option) : option MetricLogger :=
  fold_left (fun acc o => match o with OptMetrics l => l | _ => acc end)
    os None.

(** Body of the first loop of [Put]. *)
Definition put_update (writtenKeys : gmap string bool)
    (write : contactWriteMutation) : M (gmap string bool) :=
  let key := createKey (userID (target write)) (listID (target write)) in
  letM _ := Do (ZADD key (insertScore (updatedAt write))
                 (contactID (target write))) in
  ret (<[key := true]> writtenKeys).

(** Body of the second loop of [Put]. *)
Definition put_delete (writtenKeys : gmap string bool)
    (delete : contactDeleteMutation) : M (gmap string bool) :=
  let key := createKey (userID delete) (listID delete) in
  letM _ := Do (ZREM key (contactID delete)) in
  ret (<[key := true]> writtenKeys).

(** Body of the third loop of [Put]. *)
Definition put_truncate (r : redisDAL) (_ : unit) (writtenKey : string)
    : M unit :=
  letM _ := Do (ZREMRANGEBYRANK writtenKey (maxSetSize r) (-1)) in
  ret tt.

(** The keys of a Go map come out of [range] in an order the runtime
    picks; [ord] is that pick. *)
Definition key_order (ord : gmap string bool -> list string) : Prop :=
  forall m, ord m ≡ₚ (map_to_list m).*1.

(** One possible pick, used to run examples. *)
Definition range_keys (m : gmap string bool) : list string :=
  (map_to_list m).*1.

Definition Put (r : redisDAL) (ord : gmap string bool -> list string)
    (b : PutBatch) : M unit :=
  letM writtenKeys := foldM put_update (updates b) ∅ in
  letM writtenKeys := foldM put_delete (deletes b) writtenKeys in
  foldM (put_truncate r) (ord writtenKeys) tt.

Definition Get (r : redisDAL) (userID listID : string) (maxSize : Z)
    : M (list string) :=
  let key := createKey userID listID in
  letM rep := Do (ZRANGE key 0 maxSize) in
  Strings rep.


(** ** Reading [Put] as a command sequence *)

Definition update_key (w : contactWriteMutation) : string :=
  createKey (userID (target w)) (listID (target w)).

Definition delete_key (d : contactDeleteMutation) : string :=
  createKey (userID d) (listID d).

Definition update_command (w : contactWriteMutation) : command :=
  ZADD (update_key w) (insertScore (updatedAt w)) (contactID (target w)).

Definition delete_command (d : contactDeleteMutation) : command :=
  ZREM (delete_key d) (contactID d).

Definition truncate_command (r : redisDAL) (k : string) : command :=
  ZREMRANGEBYRANK k (maxSetSize r) (-1).

(** The keys a batch touches, as [Put] collects them. *)
Definition written_keys (b : PutBatch) : gmap string bool :=
  fold_left (fun wk d => <[delete_key d := true]> wk) (deletes b)
    (fold_left (fun wk w => <[update_key w := true]> wk) (updates b) ∅).

(** Sending a list of commands one after the other, stopping at the first
    that fails. *)
Definition send_all (cs : list command) : M unit :=
  foldM (fun _ c => letM _ := Do c in ret tt) cs tt.

(** All commands of a [Put] that meets no failure, in order. *)
Definition put_commands (r : redisDAL) (ord : gmap string bool -> list string)
    (b : PutBatch) : list command :=
  map update_command (updates b) ++ map delete_command (deletes b)
  ++ map (truncate_command r) (ord (written_keys b)).

(** The store after a list of commands that all went through. *)
Definition apply_commands (cs : list command) (d : gmap string zset)
    : gmap string zset :=
  fold_left (fun d c => snd (exec c d)) cs d.

(** Position and error of the first failing command among the next [n],
    counted from the [k]-th command of the connection. *)
Fixpoint first_fault (f : nat -> option error) (k n : nat)
    : option (nat * error) :=
  match n with
  | O => None
  | S n' =>
      match f k with
      | Some e => Some (O, e)
      | None =>
          match first_fault f (S k) n' with
          | Some (i, e) => Some (S i, e)
          | None => None
          end
      end
  end.

(** The outcome of sending a list of commands, in closed form. *)
Definition outcome (cs : list command) (w : world) : result unit * world :=
  match first_fault (fault w) (length (sent w)) (length cs) with
  | None =>
      (Ok tt, mkWorld (apply_commands cs (db w)) (sent w ++ cs) (fault w))
  | Some (i, e) =>
      (Err e,
       mkWorld (apply_commands (take i cs) (db w))
         (sent w ++ take (S i) cs) (fault w))
  end.

Definition is_update (c : command) : bool :=
  match c with ZADD _ _ _ => true | _ => false end.

Definition is_delete (c : command) : bool :=
  match c with ZREM _ _ => true | _ => false end.

(** The mutations a sequence of builder calls adds, per kind. *)
Definition calls_updates (cs : list call) : list contactWriteMutation :=
  flat_map (fun c => match c with
                     | CallUpdate u l m t => [mkWrite (mkDelete u l m) t]
                     | CallDelete _ _ _ => []
                     end) cs.

Definition calls_deletes (cs : list call) : list contactDeleteMutation :=
  flat_map (fun c => match c with
                     | CallUpdate _ _ _ _ => []
                     | CallDelete u l m => [mkDelete u l m]
                     end) cs.

(** A builder pointer that points to a builder whose batch exists. *)
Definition valid_builder (h : heap) (b p : loc) (pb : PutBatch) : Prop :=
  builders h !! b = Some (mkBuilder p) /\ batches h !! p = Some pb.

(** ** Reference notions *)

(** The updates, then the deletes, of a batch applied to the collections
    with nothing ever cut off. *)
Definition apply_update (d : gmap string zset) (w : contactWriteMutation)
    : gmap string zset :=
  store_set (update_key w)
    (zadd (contactID (target w)) (insertScore (updatedAt w))
       (zset_at (update_key w) d)) d.

Definition apply_delete (d : gmap string zset) (x : contactDeleteMutation)
    : gmap string zset :=
  store_set (delete_key x) (zrem (contactID x) (zset_at (delete_key x) d)) d.

Definition apply_batch (b : PutBatch) (d : gmap string zset)
    : gmap string zset :=
  fold_left apply_delete (deletes b) (fold_left apply_update (updates b) d).


(** The [n] members of lowest rank: the [n] most recently updated. *)
Definition most_recent (n : Z) (z : zset) : zset := take (Z.to_nat n) z.


(** ** Inputs used in examples *)

Definition quiet_world (d : gmap string zset) : world :=
  mkWorld d [] (fun _ => None).

(** Cluster options naming a bootstrap host. *)
Definition local_cluster : ClusterOpts :=
  mkOpts defaultMaxActiveConnections defaultMinIdleConnections
    defaultIdleTimeout "127.0.0.1:7000".

(** The DAL that [NewDAL] returns for those options and buffer size [n]
    (other than 0) when the refresh succeeds. *)
Definition dal_of_size (n : Z) : redisDAL :=
  mkDAL (Some StatsdMetrics) n
    (Some (new_cluster StatsdMetrics local_cluster)) (Some local_cluster).

Definition update_of (u l c : string) (t : Z) : contactWriteMutation :=
  mkWrite (mkDelete u l c) (mkTime t 0).

(** A transport that fails the [n]-th command with error [e]. *)
Definition failing_at (n : nat) (e : error) : nat -> option error :=
  fun i => if Nat.eqb i n then Some e else None.

(** One update and one delete, for two different lists of one owner. *)
Definition two_list_batch : PutBatch :=
  mkBatch [mkDelete "u" "l2" "b"] [update_of "u" "l1" "a" 7].

(** Two members of one list, [b] written one second after [a]. *)
Definition two_member_batch : PutBatch :=
  mkBatch [] [update_of "u" "l" "a" 1; update_of "u" "l" "b" 2].

(** The delete of a member is added before its update. *)
Definition delete_then_update : list call :=
  [CallDelete "u" "l" "c1"; CallUpdate "u" "l" "c1" (mkTime 9 0)].

(** A store in which list [l] of owner [u] already holds [c0]. *)
Definition one_member_db : gmap string zset :=
  {[ "u_l" := [("c0", insertScore (mkTime 5 0))] ]}.



(** The same single update, sent in two batches. *)
Definition one_update : PutBatch :=
  mkBatch [] [update_of "u" "l" "c" 10].




(** ** Further notions for [Put] and [Get] *)

(** The key a command addresses. *)
Definition command_key (c : command) : string :=
  match c with
  | ZADD k _ _ => k
  | ZREM k _ => k
  | ZREMRANGEBYRANK k _ _ => k
  | ZRANGE k _ _ => k
  end.

#[local] Instance entry_le_dec (a b : entry) : Decision (entry_le a b) :=
  decide (entry_leb a b = true).

#[local] Instance wf_zset_dec (z : zset) : Decision (wf_zset z) :=
  and_dec (StronglySorted_dec entry_le z) (NoDup_dec (members z)).

(** A store with several members in one list, oldest last. *)
Definition three_member_db : gmap string zset :=
  {[ "u_l" := [("c", insertScore (mkTime 3 0));
               ("b", insertScore (mkTime 2 0));
               ("a", insertScore (mkTime 1 0))] ]}.

(** The same member written three times, the last time with time 7. *)
Definition repeated_update : PutBatch :=
  mkBatch [] [update_of "u" "l" "c" 9; update_of "u" "l" "c" 3;
              update_of "u" "l" "c" 7].

(** Updates of two lists, one of them touched twice, and a delete. *)
Definition mixed_batch : PutBatch :=
  mkBatch [mkDelete "u" "l1" "a"]
    [update_of "u" "l1" "a" 1; update_of "u" "l2" "b" 2;
     update_of "u" "l1" "c" 3].

(** Deletes only. *)
Definition delete_batch : PutBatch :=
  mkBatch [mkDelete "u" "l" "b"; mkDelete "u" "l" "zz"] [].

(** * Package migrationfile: staging records in files

    The files are a finite map from path to content.  Directories and
    permissions are not modelled: opening a path succeeds exactly when the
    map has a file there. *)

Module migrationfile.

Definition DirUID : string := "uids/".
Definition DirDyn : string := "dyn/".
Definition DirSnow : string := "snow/".

Definition PrefixUID : string := "user_ids".
Definition PrefixDyn : string := "dyn_con".
Definition PrefixSnow : string := "snow_con".

Definition DoneProc : string := "DONE".

Record UserID : Type := mkUserID { UserID_UserID : Z }.

Record DynamoContact : Type := mkDynamoContact {
  DynamoContact_UserID : Z;
  DynamoContact_ListID : string
}.

Record SnowContact : Type := mkSnowContact {
  SnowContact_UserID : Z;
  SnowContact_ListID : string;
  SnowContact_ContactID : string;
  SnowContact_UpdatedAt : Z
}.

(** An element of a [[]interface{}] of the package. *)
Inductive record : Type :=
| RUserID (v : UserID)
| RDynamoContact (v : DynamoContact)
| RSnowContact (v : SnowContact).

(** How a run of a function ends: it returns, it panics, or it leaves the
    part of the [fmt] package that is modelled here. *)
Inductive run (A : Type) : Type :=
| Returns (a : A)
| Panics
| NotModelled.
Arguments Returns {A} a.
Arguments Panics {A}.
Arguments NotModelled {A}.

(** The verb [%d] on an integer: decimal digits, ['-'] first when
    negative. *)
Definition fmt_d (z : Z) : string := NilZero.string_of_int (Z.to_int z).

(** [fmt.Sprintf] on integer arguments, for formats made of plain bytes,
    [%d] and [%%]; [None] for any other verb, and when the verbs and the
    arguments do not match in number. *)
Fixpoint Sprintf (format : string) (args : list Z) : option string :=
  match format with
  | EmptyString =>
      match args with
      | [] => Some EmptyString
      | _ :: _ => None
      end
  | String c rest =>
      if Ascii.eqb c "%" then
        match rest with
        | String c' rest' =>
            if Ascii.eqb c' "d" then
              match args with
              | a :: args' =>
                  option_map (String.append (fmt_d a)) (Sprintf rest' args')
              | [] => None
              end
            else if Ascii.eqb c' "%" then
              option_map (String "%") (Sprintf rest' args)
            else None
        | EmptyString => None
        end
      else option_map (String c) (Sprintf rest args)
  end.

(** The format [buildFileName] assembles in its [strings.Builder]; the
    writes to the builder cannot fail. *)
Definition fileNameFormat (dir prefix : string) (i : list Z) : string :=
  String.append dir
    (String.append prefix
       (String.append (String.concat "" (map (fun _ => "_%d") i)) ".json")).

Definition buildFileName (dir prefix : string) (i : list Z)
    : option string :=
  Sprintf (fileNameFormat dir prefix i) i.

(** Does the byte ['%'] occur in [s]? *)
Fixpoint has_percent (s : string) : bool :=
  match s with
  | EmptyString => false
  | String c s' => if Ascii.eqb c "%" then true else has_percent s'
  end.

(** The loop shared by [batchUserIDs], [batchDynamoContacts] and
    [batchSnowflakeContacts], from index [i] on: [l] is what is left of
    the slice, [key] and [rec] are the variables of the same name, and
    [now i] is the reading of [time.Now().UnixNano()] in round [i].
    [i % size] panics when [size] is 0. *)
Fixpoint batch_loop {A : Type} (box : A -> record) (dir : string)
    (size : Z) (prefix : string) (now : nat -> Z) (i : nat) (l : list A)
    (key : string) (rec : gmap string (list record))
    : run (gmap string (list record)) :=
  match l with
  | [] => Returns rec
  | x :: l' =>
      if size =? 0 then Panics
      else if Z.rem (Z.of_nat i) size =? 0 then
        match buildFileName dir prefix [Z.of_nat i; now i] with
        | Some n =>
            batch_loop box dir size prefix now (S i) l' n
              (<[n := default [] (rec !! n) ++ [box x]]> rec)
        | None => NotModelled
        end
      else
        batch_loop box dir size prefix now (S i) l' key
          (<[key := default [] (rec !! key) ++ [box x]]> rec)
  end.

Definition batchUserIDs (size : Z) (prefix : string) (now : nat -> Z)
    (ids : list UserID) : run (gmap string (list record)) :=
  batch_loop RUserID DirUID size prefix now 0 ids "" ∅.

Definition batchDynamoContacts (size : Z) (prefix : string)
    (now : nat -> Z) (d : list DynamoContact)
    : run (gmap string (list record)) :=
  batch_loop RDynamoContact DirDyn size prefix now 0 d "" ∅.

Definition batchSnowflakeContacts (size : Z) (prefix : string)
    (now : nat -> Z) (s : list SnowContact)
    : run (gmap string (list record)) :=
  batch_loop RSnowContact DirSnow size prefix now 0 s "" ∅.

(** The name of the file that starts at index [i]. *)
Definition file_name (dir prefix : string) (now : nat -> Z) (i : nat)
    : string :=
  String.append dir
    (String.append prefix
       (String "_" (String.append (fmt_d (Z.of_nat i))
          (String "_" (String.append (fmt_d (now i)) ".json"))))).

(** The [j]-th run of [s] records of [l]. *)
Definition chunk {A : Type} (s j : nat) (l : list A) : list A :=
  take s (drop (j * s) l).

(** What the loop has built after the first [q * s + r] records of
    [ids]: [q] full files and one file, under the current [key], of [r]
    records. *)
Definition batch_inv {A : Type} (box : A -> record) (dir prefix : string)
    (now : nat -> Z) (s : nat) (ids : list A) (q r : nat) (key : string)
    (rec : gmap string (list record)) : Prop :=
  (1 <= r <= s)%nat /\ (q * s + r <= length ids)%nat /\
  key = file_name dir prefix now (q * s) /\
  (forall j, (j < q)%nat ->
     rec !! file_name dir prefix now (j * s) = Some (box <$> chunk s j ids)) /\
  rec !! key = Some (box <$> take r (drop (q * s) ids)) /\
  (forall k, is_Some (rec !! k) ->
     exists j, (j <= q)%nat /\ k = file_name dir prefix now (j * s)) /\
  size rec = S q.

(** The files are the runs of [s] records of [l], each under the name
    its first index gives it, and nothing else. *)
Definition files_are_chunks {A : Type} (box : A -> record)
    (dir prefix : string) (now : nat -> Z) (s : nat) (l : list A)
    (rec : gmap string (list record)) : Prop :=
  (forall k v, rec !! k = Some v <->
     exists j, (j * s < length l)%nat /\
       k = file_name dir prefix now (j * s) /\ v = box <$> chunk s j l) /\
  ((size rec - 1) * s < length l <= size rec * s)%nat.

(** ** Marking files as done *)

Definition newline : ascii := "010"%char.

(** The bytes ["\nDONE\n"]. *)
Definition done_mark : string :=
  String newline (String.append "DONE" (String newline EmptyString)).

(** [strings.HasSuffix] *)
Definition HasSuffix (s suffix : string) : bool :=
  (String.length suffix <=? String.length s)%nat &&
  String.eqb
    (substring (String.length s - String.length suffix)
       (String.length suffix) s)
    suffix.

(** [ioutil.ReadFile] *)
Definition ReadFile (fileName : string) (fs : gmap string string)
    : result string :=
  match fs !! fileName with
  | Some c => Ok c
  | None => Err (String.append "open " fileName)
  end.

(** [DoneProcessing]; the read error is thrown away and the content is
    then empty. *)
Definition DoneProcessing (fileName : string) (fs : gmap string string)
    : bool :=
  let b := match ReadFile fileName fs with
           | Ok c => c
           | Err _ => EmptyString
           end in
  HasSuffix b DoneProc.

(** [MarkDone]: open for appending without creating, write the mark.
    [wfail] is the error of the write, if the write fails; the content of
    the file is then left as it was. *)
Definition MarkDone (wfail : option error) (fileName : string)
    (fs : gmap string string) : option error * gmap string string :=
  match fs !! fileName with
  | None => (Some (String.append "open " fileName), fs)
  | Some c =>
      match wfail with
      | Some e => (Some e, fs)
      | None => (None, <[fileName := String.append c done_mark]> fs)
      end
  end.

End migrationfile.

(** Example inputs for the batching functions. *)
Definition three_users : list migrationfile.UserID :=
  [migrationfile.mkUserID 11; migrationfile.mkUserID 12;
   migrationfile.mkUserID 13].

Definition frozen_clock : nat -> Z := fun _ => 1600000000000000000.

(** * Package metrics *)

Module metrics.

Definition fivexx : string := "5xx".
Definition fourxx : string := "4xx".
Definition threexx : string := "3xx".
Definition twoxx : string := "2xx".
Definition onexx : string := "1xx".
Definition unknown : string := "unkown".

Definition GetBucketForHTTPStatus (httpStatus : Z) : string :=
  if 500 <=? httpStatus then fivexx
  else if 400 <=? httpStatus then fourxx
  else if 300 <=? httpStatus then threexx
  else if 200 <=? httpStatus then twoxx
  else if 100 <=? httpStatus then onexx
  else unknown.

(** [int64(duration) / 1e6]: Go's integer division rounds toward zero. *)
Definition milliseconds (duration : Z) : Z := Z.quot duration 1000000.

(** ** The batches sent to CloudWatch

    A [cloudwatch.MetricDatum] with the fields the package sets; [V] is
    the type of the values ([float64] in the code, which only moves them
    around). *)

Definition maxValuesPerMetric : nat := 150.
Definition maxMetricsPerBatch : nat := 20.

Record MetricDatum (V : Type) : Type := mkDatum {
  MetricName : string;
  Unit : string;
  Values : list V;
  Dimensions : list (string * string)
}.
Arguments mkDatum {V} _ _ _ _.
Arguments MetricName {V} _.
Arguments Unit {V} _.
Arguments Values {V} _.
Arguments Dimensions {V} _.

(** The loop of [handleBatch]: [metrics] is the map being filled and
    [puts] the maps already handed to [put], in order. *)
Fixpoint handle_loop {V : Type} (batch : list (MetricDatum V))
    (metrics : gmap string (MetricDatum V))
    (puts : list (gmap string (MetricDatum V)))
    : list (gmap string (MetricDatum V)) * gmap string (MetricDatum V) :=
  match batch with
  | [] => (puts, metrics)
  | newDatum :: rest =>
      match metrics !! MetricName newDatum with
      | Some oldDatum =>
          if (length (Values oldDatum) <? maxValuesPerMetric)%nat then
            handle_loop rest
              (<[MetricName newDatum :=
                   mkDatum (MetricName oldDatum) (Unit oldDatum)
                     (Values oldDatum ++ Values newDatum)
                     (Dimensions oldDatum)]> metrics)
              puts
          else
            handle_loop rest {[MetricName newDatum := newDatum]}
              (puts ++ [metrics])
      | None =>
          if (size metrics <? maxMetricsPerBatch)%nat then
            handle_loop rest (<[MetricName newDatum := newDatum]> metrics)
              puts
          else
            handle_loop rest {[MetricName newDatum := newDatum]}
              (puts ++ [metrics])
      end
  end.

(** [handleBatch]: the maps it hands to [put], in order.  [put] passes
    each on to the client and only logs an error of the client. *)
Definition handleBatch {V : Type} (batch : list (MetricDatum V))
    : list (gmap string (MetricDatum V)) :=
  let (puts, metrics) := handle_loop batch ∅ [] in
  if (0 <? size metrics)%nat then puts ++ [metrics] else puts.

(** The values a map holds for a metric name. *)
Definition values_in {V : Type} (name : string)
    (m : gmap string (MetricDatum V)) : list V :=
  match m !! name with
  | Some d => Values d
  | None => []
  end.

(** The values a datum brings for a metric name. *)
Definition values_for {V : Type} (name : string) (d : MetricDatum V)
    : list V :=
  if decide (MetricName d = name) then Values d else [].

End metrics.

(** * Package logger *)

Module logger.

Definition placeholder : string := "should be set in Setup()".

Record DefaultFields : Type := mkFields {
  AppName : string;
  Event : string;
  Server : string;
  Version : string
}.

(** The levels of logrus. *)
Inductive Level : Type :=
| PanicLevel | FatalLevel | ErrorLevel | WarnLevel
| InfoLevel | DebugLevel | TraceLevel.

#[local] Instance Level_eq_dec : EqDecision Level.
Proof. solve_decision. Defined.

(** The package variables: the level and the report-caller switch of
    [logger], and [defaultFields]. *)
Record state : Type := mkState {
  level : Level;
  reportCaller : bool;
  defaultFields : DefaultFields
}.

(** The state the variable initialisers and [logrus.New()] set up, before
    [init] calls [setLogLevel]. *)
Definition fresh : state :=
  mkState InfoLevel false
    (mkFields placeholder placeholder placeholder placeholder).

Definition setDefaultFields (df : DefaultFields) (st : state) : state :=
  let old := defaultFields st in
  let event := if String.eqb (Event df) "" then Event old else Event df in
  let app :=
    if String.eqb (AppName df) "" then AppName old else AppName df in
  let server :=
    if String.eqb (Server df) "" then Server old else Server df in
  let version :=
    if String.eqb (Version df) "" then Version old else Version df in
  mkState (level st) (reportCaller st) (mkFields app event server version).

(** [setLogLevel]; [parse] is [logrus.ParseLevel], [None] when it returns
    an error. *)
Definition setLogLevel (parse : string -> option Level) (lvl : string)
    (st : state) : state :=
  let logLevel := match parse lvl with
                  | Some l => l
                  | None => InfoLevel
                  end in
  mkState logLevel
    (if decide (logLevel = DebugLevel) then true else reportCaller st)
    (defaultFields st).

Definition Setup (parse : string -> option Level) (lvl : string)
    (df : DefaultFields) (st : state) : state :=
  setDefaultFields df (setLogLevel parse lvl st).

(** ** The entry on the context

    A context is the chain of the values put on it, innermost first.  A
    key is the package's own [contextKey] or a key of other code, which
    cannot be of that type; a value is an entry pointer or anything
    else. *)

Inductive ctx_key : Type :=
| ContextKey (name : string)
| ForeignKey (id : nat).

#[local] Instance ctx_key_eq_dec : EqDecision ctx_key.
Proof. solve_decision. Defined.

Inductive ctx_value (E : Type) : Type :=
| EntryValue (e : E)
| OtherValue (id : nat).
Arguments EntryValue {E} e.
Arguments OtherValue {E} id.

Definition contextLogEntryKey : ctx_key := ContextKey "logEntryKey".

(** [context.WithValue] *)
Definition WithValue {E : Type} (ctx : list (ctx_key * ctx_value E))
    (key : ctx_key) (val : ctx_value E) : list (ctx_key * ctx_value E) :=
  (key, val) :: ctx.

(** [ctx.Value(key)] *)
Fixpoint Value {E : Type} (ctx : list (ctx_key * ctx_value E))
    (key : ctx_key) : option (ctx_value E) :=
  match ctx with
  | [] => None
  | (k, v) :: ctx' => if decide (k = key) then Some v else Value ctx' key
  end.

Definition ContextWithEntry {E : Type} (ctx : list (ctx_key * ctx_value E))
    (entry : E) : list (ctx_key * ctx_value E) :=
  WithValue ctx contextLogEntryKey (EntryValue entry).

Definition EntryFromContext {E : Type} (ctx : list (ctx_key * ctx_value E))
    : result E :=
  match Value ctx contextLogEntryKey with
  | None => Err "log entry not set on context"
  | Some (EntryValue entry) => Ok entry
  | Some (OtherValue _) => Err "invalid log entry set on context"
  end.

(** [MustGetEntryFromContext]: [None] is the panic. *)
Definition MustGetEntryFromContext {E : Type}
    (ctx : list (ctx_key * ctx_value E)) : option E :=
  match EntryFromContext ctx with
  | Ok e => Some e
  | Err _ => None
  end.

(** A run of [Setup] calls, each with its level string and fields. *)
Definition Setups (parse : string -> option Level)
    (calls : list (string * DefaultFields)) (st : state) : state :=
  fold_left (fun st c => Setup parse c.1 c.2 st) calls st.

(** The last value of field [f] among the calls that is not the empty
    string, [d] when there is none. *)
Definition last_nonempty (f : DefaultFields -> string)
    (calls : list (string * DefaultFields)) (d : string) : string :=
  default d (last (filter (fun s => s <> "") (map (fun c => f c.2) calls))).

(** A context with values of other code put on top, under keys of their
    own. *)
Definition with_foreign {E : Type} (more : list (nat * ctx_value E))
    (ctx : list (ctx_key * ctx_value E)) : list (ctx_key * ctx_value E) :=
  fold_left (fun c kv => WithValue c (ForeignKey kv.1) kv.2) more ctx.

End logger.

(** * The migration driver *)

Module driver.

(** The number of rounds of the loop in [putRedis]. *)
Definition rounds : nat := Z.to_nat 1000000.

(** The calls [putRedis] makes on its builder when its loop runs [n]
    times; [clock i] is [time.Now()] in round [i]. *)
Definition putRedis_calls (n : nat) (clock : nat -> Time) : list call :=
  map (fun i => CallUpdate "Arthur Dent" "no list id" "no contact id"
                  (clock i)) (seq 0 n).

(** [putRedis] with a loop of [n] rounds: build the batch, [Put] it.
    [None] is a panic of the builder. *)
Definition putRedis_n (n : nat) (red : redisDAL)
    (ord : gmap string bool -> list string) (clock : nat -> Time)
    (h : heap) (w : world) : option (result unit * world) :=
  match build_batch (putRedis_calls n clock) h with
  | Some (b, _) => Some (Put red ord b w)
  | None => None
  end.

Definition putRedis (red : redisDAL)
    (ord : gmap string bool -> list string) (clock : nat -> Time)
    (h : heap) (w : world) : option (result unit * world) :=
  putRedis_n rounds red ord clock h w.

(** [new]: the DAL of the client from the configured address; [None] is
    the panic on an error of [NewDAL]. *)
Definition new (RedisCredentials : string)
    (refresh : Cluster -> option error) : option redisDAL :=
  let clusterOptions :=
    mkOpts (MaxActiveConnections NewClusterOptions)
      (MinIdleConnections NewClusterOptions)
      (ConnectionIdleTimeout NewClusterOptions) RedisCredentials in
  match NewDAL refresh [WithClusterOptions (Some clusterOptions)] with
  | Ok r => Some r
  | Err _ => None
  end.

End driver.

(* ===================================================================== *)
(** * Part II: properties                                                 *)
(* ===================================================================== *)

(** ** Keys *)

Lemma createKey_head (c : ascii) (u l : string) :
  createKey (String c u) l = String c (createKey u l).
Proof. reflexivity. Qed.

Lemma createKey_cancel (u1 l1 u2 l2 : string) :
  has_sep u1 = false -> has_sep u2 = false ->
  createKey u1 l1 = createKey u2 l2 -> u1 = u2 /\ l1 = l2.
Proof.
  revert u2. induction u1 as [|c1 u1 IH]; intros [|c2 u2] H1 H2 E.
  - unfold createKey in E. simpl in E. by inversion E.
  - unfold createKey in E. simpl in E. inversion E; subst c2.
    simpl in H2. discriminate H2.
  - unfold createKey in E. simpl in E. inversion E; subst c1.
    simpl in H1. discriminate H1.
  - rewrite !createKey_head in E. inversion E; subst c2.
    simpl in H1, H2.
    destruct (Ascii.eqb c1 "_"); [done|].
    destruct (IH u2 H1 H2) as [-> ->]; done.
Qed.

(** C2 (as the code has it): [createKey] is a function of its two
    arguments, and on owner ids that do not contain the separator byte it
    is injective: two pairs give the same key exactly when they are the
    same pair. *)
Theorem createKey_injective_without_separator (u1 l1 u2 l2 : string) :
  has_sep u1 = false -> has_sep u2 = false ->
  (createKey u1 l1 = createKey u2 l2 <-> u1 = u2 /\ l1 = l2).
Proof.
  intros H1 H2. split.
  - by apply createKey_cancel.
  - by intros [-> ->].
Qed.

Lemma createKey_injective_without_separator_witness :
  has_sep "ab" = false /\ has_sep "a" = false /\
  (createKey "ab" "c" = createKey "a" "bc" <-> "ab" = "a" /\ "c" = "bc").
Proof.
  split; [reflexivity|]. split; [reflexivity|].
  apply (createKey_injective_without_separator "ab" "c" "a" "bc");
    reflexivity.
Defined.

(** C2 fails as stated: two distinct pairs whose owner id contains the
    separator are mapped to one key. *)
Lemma createKey_collision :
  ("a_b", "c") <> ("a", "b_c") /\ createKey "a_b" "c" = createKey "a" "b_c".
Proof. split; [discriminate | reflexivity]. Qed.

(** ** Scores *)






(** ** The rank order *)

Lemma entry_le_iff (a b : entry) :
  entry_le a b <->
  score a < score b \/
  (score a = score b /\
   (member a = member b \/ String_as_OT.lt (member a) (member b))).
Proof.
  unfold entry_le, entry_leb, entry_cmp, String_as_OT.lt.
  destruct (Z.compare_spec (score a) (score b)) as [E|L|G].
  - destruct (String_as_OT.compare_spec (member a) (member b)) as [E'|L'|G'].
    + split; [intros _; right; auto | done].
    + split; [intros _; right; auto | done].
    + split; [done|]. intros [?|[_ [E'|L']]]; [lia| |].
      * rewrite E' in G'. by apply (irreflexivity String_as_OT.lt) in G'.
      * exfalso. apply (irreflexivity String_as_OT.lt (member a)).
        by transitivity (member b).
  - split; [intros _; by left | done].
  - split; [done|]. intros [?|[? _]]; lia.
Qed.

Lemma entry_le_score (a b : entry) : entry_le a b -> score a <= score b.
Proof. rewrite entry_le_iff. intros [?|[? _]]; lia. Qed.

#[local] Instance entry_le_refl : Reflexive entry_le.
Proof. intros a. apply entry_le_iff. right. auto. Qed.

#[local] Instance entry_le_trans : Transitive entry_le.
Proof.
  intros a b c. rewrite !entry_le_iff.
  intros [?|[E1 H1]] [?|[E2 H2]]; try (left; lia).
  right. split; [lia|].
  destruct H1 as [->|L1], H2 as [<-|L2]; auto.
  right. by transitivity (member b).
Qed.

#[local] Instance entry_le_total : Total entry_le.
Proof.
  intros a b. rewrite !entry_le_iff.
  destruct (Z.lt_total (score a) (score b)) as [?|[E|?]]; auto.
  destruct (String_as_OT.compare_spec (member a) (member b)) as [E'|L'|G'].
  - left. right. auto.
  - left. right. auto.
  - right. right. auto.
Qed.

#[local] Instance entry_le_antisym : AntiSymm (=) entry_le.
Proof.
  intros [ma sa] [mb sb]. rewrite !entry_le_iff. simpl.
  intros [?|[E1 H1]] [?|[E2 H2]]; try lia.
  destruct H1 as [->|L1]; [by subst|].
  destruct H2 as [->|L2].
  - by apply (irreflexivity String_as_OT.lt) in L1.
  - exfalso. apply (irreflexivity String_as_OT.lt ma). by transitivity mb.
Qed.


(** ** Sorted sets *)

Lemma StronglySorted_sublist {A} (R : relation A) (l1 l2 : list A) :
  l1 `sublist_of` l2 -> StronglySorted R l2 -> StronglySorted R l1.
Proof.
  induction 1 as [|x l1 l2 Hs IH|x l1 l2 Hs IH]; intros Hl2.
  - constructor.
  - apply StronglySorted_inv in Hl2 as [Hl2 Hx]. constructor; [auto|].
    rewrite Forall_forall in Hx |- *. intros y Hy. apply Hx.
    by eapply elem_of_sublist.
  - apply StronglySorted_inv in Hl2 as [Hl2 _]. auto.
Qed.

Lemma wf_sublist (z1 z2 : zset) :
  z1 `sublist_of` z2 -> wf_zset z2 -> wf_zset z1.
Proof.
  intros Hs [Hsort Hnd]. split.
  - by eapply StronglySorted_sublist.
  - apply (sublist_NoDup _ (members z2)); [done | by apply fmap_sublist].
Qed.

Lemma wf_nil : wf_zset [].
Proof. split; constructor. Qed.

Lemma zrem_sublist (m : string) (z : zset) : zrem m z `sublist_of` z.
Proof. apply sublist_filter. Qed.

Lemma elem_of_zrem (e : entry) (m : string) (z : zset) :
  e ∈ zrem m z <-> member e ≠ m /\ e ∈ z.
Proof. unfold zrem. by rewrite list_elem_of_filter. Qed.

Lemma members_zrem (m : string) (z : zset) : m ∉ members (zrem m z).
Proof.
  unfold members. rewrite list_elem_of_fmap. intros [e [-> He]].
  apply elem_of_zrem in He as [Hne _]. done.
Qed.

Lemma zrem_absent (m : string) (z : zset) :
  m ∉ members z -> zrem m z = z.
Proof.
  unfold members, zrem. induction z as [|x z IH]; intros Hm; [done|].
  rewrite fmap_cons, not_elem_of_cons in Hm. destruct Hm as [Hx Hz].
  rewrite filter_cons_True by done. f_equal. auto.
Qed.

Lemma zinsert_perm (e : entry) (z : zset) : zinsert e z ≡ₚ e :: z.
Proof.
  induction z as [|x z IH]; simpl; [done|].
  destruct (entry_leb e x); [done|].
  rewrite IH. apply Permutation_swap.
Qed.

Lemma zinsert_sorted (e : entry) (z : zset) :
  StronglySorted entry_le z -> StronglySorted entry_le (zinsert e z).
Proof.
  induction z as [|x z IH]; intros Hz; simpl.
  - repeat constructor.
  - apply StronglySorted_inv in Hz as [Hz Hx].
    destruct (entry_leb e x) eqn:E.
    + constructor; [by constructor|].
      constructor; [done|].
      eapply Forall_impl; [exact Hx|]. intros y Hy. by transitivity x.
    + constructor; [auto|].
      rewrite zinsert_perm. constructor; [|done].
      destruct (total entry_le e x) as [H|H]; [|done].
      unfold entry_le in H. congruence.
Qed.

Lemma wf_zrem (m : string) (z : zset) : wf_zset z -> wf_zset (zrem m z).
Proof. apply wf_sublist, zrem_sublist. Qed.

Lemma wf_zadd (m : string) (s : Z) (z : zset) :
  wf_zset z -> wf_zset (zadd m s z).
Proof.
  intros Hz. destruct (wf_zrem m z Hz) as [Hs Hn]. split.
  - by apply zinsert_sorted.
  - unfold zadd, members. rewrite zinsert_perm, fmap_cons.
    constructor; [apply members_zrem | done].
Qed.




(** ** Rank ranges *)

Lemma rank_window_bounds (llen start stop a b : Z) :
  rank_window llen start stop = Some (a, b) -> 0 <= a <= b /\ b < llen.
Proof.
  unfold rank_window. intros Hw.
  repeat (case_match; try discriminate);
    inversion Hw; subst; lia.
Qed.

Lemma zrange_sublist (z : zset) (a b : Z) : zrange z a b `sublist_of` z.
Proof.
  unfold zrange. destruct (rank_window _ a b) as [[x y]|].
  - etransitivity; [apply sublist_take | apply sublist_drop].
  - apply sublist_nil_l.
Qed.

Lemma zremrangebyrank_sublist (z : zset) (a b : Z) :
  zremrangebyrank z a b `sublist_of` z.
Proof.
  unfold zremrangebyrank.
  destruct (rank_window _ a b) as [[x y]|] eqn:Hw; [|done].
  apply rank_window_bounds in Hw.
  rewrite <- (take_drop (Z.to_nat x) z) at 3.
  apply sublist_app; [done|].
  replace (Z.to_nat (y + 1)) with (Z.to_nat x + Z.to_nat (y + 1 - x))%nat
    by lia.
  rewrite <- drop_drop. apply sublist_drop.
Qed.

(** [ZREMRANGEBYRANK key n -1] with [n] not negative keeps ranks below [n]. *)
Lemma truncate_take (z : zset) (n : Z) :
  0 <= n -> zremrangebyrank z n (-1) = take (Z.to_nat n) z.
Proof.
  intros Hn. unfold zremrangebyrank, rank_window. cbv zeta.
  assert ((n <? 0) = false) as E by (apply Z.ltb_ge; lia).
  change ((-1) <? 0) with true. rewrite E. cbv iota. rewrite E.
  set (len := Z.of_nat (length z)).
  assert (len = Z.of_nat (length z)) as Hlen by done. clearbody len.
  destruct (Z.ltb_spec (len + -1) n) as [H1|H1]; simpl.
  { symmetry. apply take_ge. lia. }
  destruct (Z.leb_spec len n) as [H2|H2]; simpl; [lia|].
  destruct (Z.leb_spec len (len + -1)) as [H3|H3]; [lia|].
  rewrite (drop_ge z) by lia. by rewrite app_nil_r.
Qed.

(** [ZRANGE key 0 n] with [n] not negative returns ranks 0 to [n]
    inclusive. *)
Lemma zrange_take (z : zset) (n : Z) :
  0 <= n -> zrange z 0 n = take (Z.to_nat (n + 1)) z.
Proof.
  intros Hn. unfold zrange, rank_window. cbv zeta.
  assert ((n <? 0) = false) as E by (apply Z.ltb_ge; lia).
  change (0 <? 0) with false. rewrite E. cbv iota.
  set (len := Z.of_nat (length z)).
  assert (len = Z.of_nat (length z)) as Hlen by done. clearbody len.
  simpl. rewrite ?E. simpl.
  destruct (Z.leb_spec len 0) as [H2|H2].
  { destruct z; [by rewrite take_nil | simpl in Hlen; lia]. }
  change (Z.to_nat 0) with 0%nat. rewrite drop_0.
  destruct (Z.leb_spec len n) as [H3|H3].
  - rewrite !take_ge by lia. done.
  - f_equal. lia.
Qed.

(** ** The store *)

Lemma zset_at_store_set (k k' : string) (z : zset) (d : gmap string zset) :
  zset_at k' (store_set k z d) = if decide (k = k') then z else zset_at k' d.
Proof.
  unfold zset_at, store_set. destruct z as [|e z].
  - rewrite lookup_delete. by case_decide.
  - rewrite lookup_insert. by case_decide.
Qed.

Lemma zset_at_store_set_eq (k : string) (z : zset) (d : gmap string zset) :
  zset_at k (store_set k z d) = z.
Proof. rewrite zset_at_store_set. by rewrite decide_True. Qed.

Lemma zset_at_store_set_ne (k k' : string) (z : zset) (d : gmap string zset) :
  k ≠ k' -> zset_at k' (store_set k z d) = zset_at k' d.
Proof. intros. rewrite zset_at_store_set. by rewrite decide_False. Qed.

Lemma store_set_twice (k : string) (z1 z2 : zset) (d : gmap string zset) :
  store_set k z2 (store_set k z1 d) = store_set k z2 d.
Proof.
  unfold store_set. destruct z1, z2.
  - apply delete_delete_eq.
  - apply insert_delete_eq.
  - apply delete_insert_eq.
  - apply insert_insert_eq.
Qed.

Lemma wf_zset_at (k : string) (d : gmap string zset) :
  wf_db d -> wf_zset (zset_at k d).
Proof.
  intros Hd. unfold zset_at. destruct (d !! k) as [z|] eqn:E; simpl.
  - by apply (Hd k).
  - apply wf_nil.
Qed.

Lemma wf_db_store_set (k : string) (z : zset) (d : gmap string zset) :
  wf_zset z -> wf_db d -> wf_db (store_set k z d).
Proof.
  intros Hz Hd k' z'. unfold store_set. destruct z as [|e z].
  - rewrite lookup_delete. case_decide; [done | apply Hd].
  - rewrite lookup_insert. case_decide; [|apply Hd]. by intros [= <-].
Qed.


Lemma wf_db_exec (c : command) (d : gmap string zset) :
  wf_db d -> wf_db (snd (exec c d)).
Proof.
  intros Hd. destruct c as [k s m|k m|k a b|k a b]; simpl; [| | |done].
  - apply wf_db_store_set; [|done]. by apply wf_zadd, wf_zset_at.
  - apply wf_db_store_set; [|done]. by apply wf_zrem, wf_zset_at.
  - apply wf_db_store_set; [|done].
    eapply wf_sublist; [apply zremrangebyrank_sublist | by apply wf_zset_at].
Qed.

Lemma wf_db_apply_commands (cs : list command) (d : gmap string zset) :
  wf_db d -> wf_db (apply_commands cs d).
Proof.
  revert d. induction cs as [|c cs IH]; intros d Hd; [done|].
  simpl. apply IH. by apply wf_db_exec.
Qed.

Lemma apply_commands_app (cs1 cs2 : list command) (d : gmap string zset) :
  apply_commands (cs1 ++ cs2) d = apply_commands cs2 (apply_commands cs1 d).
Proof. apply fold_left_app. Qed.

(** ** Failures on the connection *)

Lemma first_fault_None (f : nat -> option error) (k n : nat) :
  first_fault f k n = None <-> forall i, (i < n)%nat -> f (k + i)%nat = None.
Proof.
  revert k. induction n as [|n IH]; intros k; simpl.
  - split; [intros _ i ?; lia | done].
  - destruct (f k) as [e|] eqn:Ek.
    + split; [done|]. intros Hall.
      specialize (Hall 0%nat ltac:(lia)). rewrite Nat.add_0_r in Hall.
      congruence.
    + destruct (first_fault f (S k) n) as [[i e]|] eqn:Ef.
      * split; [done|]. intros Hall.
        assert (first_fault f (S k) n = None) as Hn; [|congruence].
        apply IH. intros i' Hi'.
        replace (S k + i')%nat with (k + S i')%nat by lia.
        apply Hall. lia.
      * split; [|done]. intros _ [|i] Hi.
        -- by rewrite Nat.add_0_r.
        -- replace (k + S i)%nat with (S k + i)%nat by lia.
           apply (proj1 (IH (S k)) Ef). lia.
Qed.

Lemma first_fault_Some (f : nat -> option error) (k n i : nat) (e : error) :
  first_fault f k n = Some (i, e) <->
  (i < n)%nat /\ f (k + i)%nat = Some e /\
  forall j, (j < i)%nat -> f (k + j)%nat = None.
Proof.
  revert k i e. induction n as [|n IH]; intros k i e; simpl.
  - split; [done | intros [? _]; lia].
  - destruct (f k) as [e'|] eqn:Ek.
    + split.
      * intros [= <- <-]. rewrite Nat.add_0_r.
        repeat split; [lia | done | intros; lia].
      * intros (Hi & He & Hb). destruct i as [|i].
        -- rewrite Nat.add_0_r in He. congruence.
        -- specialize (Hb 0%nat ltac:(lia)). rewrite Nat.add_0_r in Hb.
           congruence.
    + destruct (first_fault f (S k) n) as [[i' e']|] eqn:Ef.
      * apply IH in Ef as (Hi' & He' & Hb'). split.
        -- intros [= <- <-].
           replace (k + S i')%nat with (S k + i')%nat by lia.
           repeat split; [lia | done |].
           intros [|j] Hj; [by rewrite Nat.add_0_r|].
           replace (k + S j)%nat with (S k + j)%nat by lia.
           apply Hb'. lia.
        -- intros (Hi & He & Hb). destruct i as [|i].
           { rewrite Nat.add_0_r in He. congruence. }
           replace (k + S i)%nat with (S k + i)%nat in He by lia.
           destruct (Nat.lt_trichotomy i i') as [Hlt|[->|Hgt]].
           ++ rewrite Hb' in He by done. done.
           ++ congruence.
           ++ specialize (Hb (S i') ltac:(lia)).
              replace (k + S i')%nat with (S k + i')%nat in Hb by lia.
              congruence.
      * split; [done|]. intros (Hi & He & Hb). destruct i as [|i].
        -- rewrite Nat.add_0_r in He. congruence.
        -- apply (proj1 (first_fault_None f (S k) n)) with (i := i) in Ef;
             [|lia].
           replace (k + S i)%nat with (S k + i)%nat in He by lia.
           congruence.
Qed.

Lemma send_all_cons (c : command) (cs : list command) (w : world) :
  send_all (c :: cs) w =
  match Do c w with
  | (Ok _, w') => send_all cs w'
  | (Err e, w') => (Err e, w')
  end.
Proof.
  unfold send_all. simpl. unfold bind at 1. unfold bind at 1.
  destruct (Do c w) as [[rp|e] w']; [|done]. unfold ret. done.
Qed.

Lemma send_all_outcome (cs : list command) (w : world) :
  send_all cs w = outcome cs w.
Proof.
  revert w. induction cs as [|c cs IH]; intros w.
  - unfold outcome. simpl. rewrite app_nil_r. by destruct w.
  - rewrite send_all_cons. unfold Do, outcome. simpl.
    destruct (fault w (length (sent w))) as [e|] eqn:Ef.
    + by rewrite take_0.
    + destruct (exec c (db w)) as [rp d] eqn:Ex. rewrite IH.
      unfold outcome. simpl. rewrite length_app. simpl.
      replace (length (sent w) + 1)%nat with (S (length (sent w))) by lia.
      destruct (first_fault _ _ _) as [[i e]|];
        rewrite <- ?app_assoc; simpl; by rewrite ?Ex.
Qed.

Lemma send_all_app (cs1 cs2 : list command) (w : world) :
  send_all (cs1 ++ cs2) w =
  match send_all cs1 w with
  | (Ok _, w') => send_all cs2 w'
  | (Err e, w') => (Err e, w')
  end.
Proof.
  revert w. induction cs1 as [|c cs1 IH]; intros w; [done|].
  rewrite <- app_comm_cons, !send_all_cons.
  destruct (Do c w) as [[rp|e] w']; [apply IH | done].
Qed.

(** ** [Put] as a command sequence *)

Lemma foldM_put_update (us : list contactWriteMutation)
    (wk : gmap string bool) (w : world) :
  foldM put_update us wk w =
  match send_all (map update_command us) w with
  | (Ok _, w') =>
      (Ok (fold_left (fun wk u => <[update_key u := true]> wk) us wk), w')
  | (Err e, w') => (Err e, w')
  end.
Proof.
  revert wk w. induction us as [|u us IH]; intros wk w; [done|].
  cbn [foldM map fold_left]. rewrite send_all_cons.
  unfold bind at 1. unfold put_update at 1. unfold bind at 1.
  fold (update_key u). fold (update_command u).
  destruct (Do (update_command u) w) as [[rp|e] w']; [|done].
  unfold ret. apply IH.
Qed.

Lemma foldM_put_delete (ds : list contactDeleteMutation)
    (wk : gmap string bool) (w : world) :
  foldM put_delete ds wk w =
  match send_all (map delete_command ds) w with
  | (Ok _, w') =>
      (Ok (fold_left (fun wk d => <[delete_key d := true]> wk) ds wk), w')
  | (Err e, w') => (Err e, w')
  end.
Proof.
  revert wk w. induction ds as [|d ds IH]; intros wk w; [done|].
  cbn [foldM map fold_left]. rewrite send_all_cons.
  unfold bind at 1. unfold put_delete at 1. unfold bind at 1.
  fold (delete_key d). fold (delete_command d).
  destruct (Do (delete_command d) w) as [[rp|e] w']; [|done].
  unfold ret. apply IH.
Qed.

Lemma foldM_put_truncate (r : redisDAL) (ks : list string) (w : world) :
  foldM (put_truncate r) ks tt w = send_all (map (truncate_command r) ks) w.
Proof.
  revert w. induction ks as [|k ks IH]; intros w; [done|].
  cbn [foldM map]. rewrite send_all_cons.
  unfold bind at 1. unfold put_truncate at 1. unfold bind at 1.
  fold (truncate_command r k).
  destruct (Do (truncate_command r k) w) as [[rp|e] w']; [|done].
  unfold ret. apply IH.
Qed.

Lemma Put_send_all (r : redisDAL) (ord : gmap string bool -> list string)
    (b : PutBatch) (w : world) :
  Put r ord b w = send_all (put_commands r ord b) w.
Proof.
  unfold Put, put_commands, written_keys.
  rewrite send_all_app. unfold bind at 1.
  rewrite foldM_put_update.
  destruct (send_all (map update_command (updates b)) w) as [[[]|e] w1];
    [|done].
  unfold bind at 1. rewrite foldM_put_delete, send_all_app.
  destruct (send_all (map delete_command (deletes b)) w1) as [[[]|e] w2];
    [|done].
  apply foldM_put_truncate.
Qed.

Lemma Put_outcome (r : redisDAL) (ord : gmap string bool -> list string)
    (b : PutBatch) (w : world) :
  Put r ord b w = outcome (put_commands r ord b) w.
Proof. by rewrite Put_send_all, send_all_outcome. Qed.

(** A [Put] that returns no error has sent all its commands, and the
    store has executed them. *)
Lemma Put_Ok_inv (r : redisDAL) (ord : gmap string bool -> list string)
    (b : PutBatch) (w w' : world) :
  Put r ord b w = (Ok tt, w') ->
  db w' = apply_commands (put_commands r ord b) (db w) /\
  sent w' = sent w ++ put_commands r ord b /\
  fault w' = fault w.
Proof.
  rewrite Put_outcome. unfold outcome.
  destruct (first_fault _ _ _) as [[i e]|]; [done|].
  by intros [= <-].
Qed.

(** ** Failure of a command inside [Put] *)

(** C6: when the [i]-th command of a [Put] is the first to fail, with
    error [e], [Put] returns [e]; the connection has been sent the
    commands up to and including that one and none after it; and the
    store holds the effect of the [i] commands before it. *)
Theorem Put_stops_at_first_failure (r : redisDAL)
    (ord : gmap string bool -> list string) (b : PutBatch) (w : world)
    (i : nat) (e : error) :
  (i < length (put_commands r ord b))%nat ->
  (forall j, (j < i)%nat -> fault w (length (sent w) + j)%nat = None) ->
  fault w (length (sent w) + i)%nat = Some e ->
  exists w',
    Put r ord b w = (Err e, w') /\
    sent w' = sent w ++ take (S i) (put_commands r ord b) /\
    db w' = apply_commands (take i (put_commands r ord b)) (db w).
Proof.
  intros Hi Hbefore Hat.
  assert (first_fault (fault w) (length (sent w))
            (length (put_commands r ord b)) = Some (i, e)) as Hf.
  { apply first_fault_Some. auto. }
  rewrite Put_outcome. unfold outcome. rewrite Hf.
  eexists. split; [reflexivity|]. split; reflexivity.
Qed.

Lemma Put_stops_at_first_failure_witness :
  exists w',
    Put (dal_of_size 5) range_keys two_list_batch
      (mkWorld ∅ [] (failing_at 1 "connection reset")) =
      (Err "connection reset", w') /\
    sent w' =
      [] ++ take 2 (put_commands (dal_of_size 5) range_keys two_list_batch) /\
    db w' =
      apply_commands
        (take 1 (put_commands (dal_of_size 5) range_keys two_list_batch)) ∅.
Proof.
  apply (Put_stops_at_first_failure (dal_of_size 5) range_keys two_list_batch
           (mkWorld ∅ [] (failing_at 1 "connection reset")) 1
           "connection reset").
  - vm_compute. lia.
  - intros [|j] Hj; [reflexivity | lia].
  - reflexivity.
Defined.

(** The three kinds of command are the only ones [Put] sends. *)
Lemma put_commands_kinds (r : redisDAL)
    (ord : gmap string bool -> list string) (b : PutBatch) (c : command) :
  c ∈ put_commands r ord b ->
  (exists u, c = update_command u) \/ (exists d, c = delete_command d) \/
  (exists k, c = truncate_command r k).
Proof.
  unfold put_commands. rewrite !elem_of_app, !list_elem_of_In, !in_map_iff.
  intros [(u & <- & _)|[(d & <- & _)|(k & <- & _)]]; eauto.
Qed.

(** ** [Get] *)

Lemma Get_run (r : redisDAL) (u l : string) (n : Z) (w : world) :
  Get r u l n w =
  match fault w (length (sent w)) with
  | Some e =>
      (Err e, mkWorld (db w) (sent w ++ [ZRANGE (createKey u l) 0 n])
                (fault w))
  | None =>
      (Ok (members (zrange (zset_at (createKey u l) (db w)) 0 n)),
       mkWorld (db w) (sent w ++ [ZRANGE (createKey u l) 0 n]) (fault w))
  end.
Proof.
  unfold Get, bind, Do. destruct (fault w (length (sent w))); done.
Qed.

(** What a successful [Get] returns for a size that is not negative: the
    members at ranks 0 to [maxSize], both included. *)
Lemma Get_length (r : redisDAL) (u l : string) (n : Z) (w w' : world)
    (ms : list string) :
  0 <= n -> Get r u l n w = (Ok ms, w') ->
  length ms =
  Nat.min (Z.to_nat (n + 1)) (length (zset_at (createKey u l) (db w))).
Proof.
  intros Hn. rewrite Get_run.
  destruct (fault w (length (sent w))); [done|]. intros [= <- _].
  unfold members. by rewrite length_fmap, zrange_take, length_take.
Qed.

(** C1, at an input where the code departs from it: with two members
    stored for the list, [Get] asked for at most one returns both. *)
Theorem Get_exceeds_maxSize :
  let r := dal_of_size 100 in
  let w := snd (Put r range_keys two_member_batch (quiet_world ∅)) in
  fst (Put r range_keys two_member_batch (quiet_world ∅)) = Ok tt /\
  fst (Get r "u" "l" 1 w) = Ok ["b"; "a"] /\
  (1 < length ["b"; "a"])%nat.
Proof. cbv zeta. vm_compute. repeat split. lia. Qed.

(** ** Construction of the DAL *)

Lemma apply_options_clusterOpts (os : list dal_option) (r : redisDAL) :
  clusterOpts (apply_options (map option_fn os) r) =
  fold_left (fun acc o => match o with OptCluster co => co | _ => acc end)
    os (clusterOpts r).
Proof.
  unfold apply_options. revert r.
  induction os as [|o os IH]; intros r; [done|].
  cbn [map fold_left]. rewrite IH. by destruct o.
Qed.

Lemma apply_options_metricsLogger (os : list dal_option) (r : redisDAL) :
  metricsLogger (apply_options (map option_fn os) r) =
  fold_left (fun acc o => match o with OptMetrics l => l | _ => acc end)
    os (metricsLogger r).
Proof.
  unfold apply_options. revert r.
  induction os as [|o os IH]; intros r; [done|].
  cbn [map fold_left]. rewrite IH. by destruct o.
Qed.

Lemma apply_options_maxSetSize (os : list dal_option) (r : redisDAL)
    (acc : option Z) :
  maxSetSize (apply_options (map option_fn os)
                (mkDAL (metricsLogger r) (default (maxSetSize r) acc)
                   (cluster r) (clusterOpts r))) =
  default (maxSetSize r)
    (fold_left
       (fun acc o => match o with OptBuffer n => Some n | _ => acc end)
       os acc).
Proof.
  unfold apply_options. revert r acc.
  induction os as [|o os IH]; intros r acc; [done|].
  cbn [map fold_left]. destruct o as [co|n|lg]; simpl.
  - apply (IH (WithClusterOptions co r) acc).
  - apply (IH r (Some n)).
  - apply (IH (WithMetricsLogger lg r) acc).
Qed.

Lemma apply_options_cluster (os : list dal_option) :
  clusterOpts (apply_options (map option_fn os) zero_redisDAL) =
  supplied_cluster os.
Proof. apply apply_options_clusterOpts. Qed.

Lemma apply_options_logger (os : list dal_option) :
  metricsLogger (apply_options (map option_fn os) zero_redisDAL) =
  supplied_logger os.
Proof. apply apply_options_metricsLogger. Qed.

Lemma apply_options_buffer (os : list dal_option) :
  maxSetSize (apply_options (map option_fn os) zero_redisDAL) =
  default 0 (supplied_buffer os).
Proof. apply (apply_options_maxSetSize os zero_redisDAL None). Qed.

(** [NewDAL] in terms of the options in force. *)
Lemma NewDAL_unfold (refresh : Cluster -> option error)
    (os : list dal_option) :
  NewDAL refresh (map option_fn os) =
  match supplied_cluster os with
  | None => Err "You must specify clusterOptions via WithClusterOptions"
  | Some co =>
      if String.eqb (BoostrapHost co) ""
      then Err "You must specify the 'BoostrapHost' in the cluster options"
      else
        let ml := default StatsdMetrics (supplied_logger os) in
        let n := default 0 (supplied_buffer os) in
        match refresh (new_cluster ml co) with
        | Some err => Err err
        | None =>
            Ok (mkDAL (Some ml)
                  (if n =? 0 then defaultMaxSortedSetBuffer else n)
                  (Some (new_cluster ml co)) (Some co))
        end
  end.
Proof.
  unfold NewDAL.
  rewrite apply_options_cluster, apply_options_logger, apply_options_buffer.
  destruct (supplied_cluster os) as [co|]; [|done].
  destruct (String.eqb (BoostrapHost co) ""); [done|].
  by destruct (supplied_logger os).
Qed.

(** C7: [NewDAL] fails with a configuration error when no cluster options
    are in force and when their bootstrap host is empty, fails with the
    refresh error when the first topology refresh fails, and returns a
    DAL exactly when options with a non-empty bootstrap host were given
    and the refresh went through. *)
Theorem NewDAL_outcome (refresh : Cluster -> option error)
    (os : list dal_option) :
  let ml := default StatsdMetrics (supplied_logger os) in
  (supplied_cluster os = None ->
   NewDAL refresh (map option_fn os) =
   Err "You must specify clusterOptions via WithClusterOptions") /\
  (forall co, supplied_cluster os = Some co -> BoostrapHost co = "" ->
   NewDAL refresh (map option_fn os) =
   Err "You must specify the 'BoostrapHost' in the cluster options") /\
  (forall co e, supplied_cluster os = Some co -> BoostrapHost co <> "" ->
   refresh (new_cluster ml co) = Some e ->
   NewDAL refresh (map option_fn os) = Err e) /\
  ((exists d, NewDAL refresh (map option_fn os) = Ok d) <->
   (exists co, supplied_cluster os = Some co /\ BoostrapHost co <> "" /\
      refresh (new_cluster ml co) = None)) /\
  (forall d, NewDAL refresh (map option_fn os) = Ok d ->
   exists co, clusterOpts d = Some co /\
     cluster d = Some (new_cluster ml co) /\
     StartupNodes (new_cluster ml co) = [BoostrapHost co]).
Proof.
  cbv zeta. rewrite NewDAL_unfold.
  destruct (supplied_cluster os) as [co|] eqn:Ec.
  2: { split_and!; try done.
       split; [intros [d Hd]; discriminate Hd | intros (co & Hco & _); done]. }
  destruct (String.eqb_spec (BoostrapHost co) "") as [Eh|Nh].
  { split_and!; try done.
    - intros co' e [= <-] Hne. done.
    - split; [intros [d Hd]; discriminate Hd|].
      intros (co' & [= <-] & Hne & _). done. }
  cbv zeta.
  destruct (refresh (new_cluster (default StatsdMetrics (supplied_logger os))
                       co)) as [e|] eqn:Er.
  - split_and!; try done.
    + intros co' [= <-] Hh. done.
    + intros co' e' [= <-] _ Hr. congruence.
    + split; [intros [d Hd]; discriminate Hd|].
      intros (co' & [= <-] & _ & Hr). congruence.
  - split_and!; try done.
    + intros co' [= <-] Hh. done.
    + intros co' e' [= <-] _ Hr. congruence.
    + split; [intros _; by exists co | intros _; by eexists].
    + intros d [= <-]. by exists co.
Qed.

(** C10 (as the code has it): a DAL that was constructed never has
    [maxSetSize] 0; it is the default 100 when [WithMaxSortedBuffer] was
    omitted or given 0, and otherwise the value given, kept as it is, so
    that it is at least 1 exactly when the value given is not negative. *)
Theorem NewDAL_maxSetSize (refresh : Cluster -> option error)
    (os : list dal_option) (d : redisDAL) :
  NewDAL refresh (map option_fn os) = Ok d ->
  maxSetSize d <> 0 /\
  (supplied_buffer os = None -> maxSetSize d = 100) /\
  (supplied_buffer os = Some 0 -> maxSetSize d = 100) /\
  (forall n, supplied_buffer os = Some n -> n <> 0 -> maxSetSize d = n) /\
  (1 <= maxSetSize d <-> 0 <= default 0 (supplied_buffer os)).
Proof.
  rewrite NewDAL_unfold.
  destruct (supplied_cluster os) as [co|]; [|done].
  destruct (String.eqb (BoostrapHost co) ""); [done|].
  cbv zeta. destruct (refresh _); [done|]. intros [= <-]. simpl.
  unfold defaultMaxSortedSetBuffer.
  destruct (supplied_buffer os) as [n|]; simpl.
  - destruct (Z.eqb_spec n 0) as [->|Hn].
    + repeat split; try done; try lia. intros n [= <-]. done.
    + repeat split; try done; try lia.
      * intros [= ->]. done.
      * by intros n' [= <-].
  - repeat split; try done; lia.
Qed.

Lemma NewDAL_maxSetSize_witness :
  NewDAL (fun _ => None)
    (map option_fn [OptCluster (Some local_cluster); OptBuffer 0]) =
    Ok (dal_of_size 100) /\
  maxSetSize (dal_of_size 100) <> 0.
Proof.
  split; [reflexivity|].
  exact (proj1 (NewDAL_maxSetSize (fun _ => None)
    [OptCluster (Some local_cluster); OptBuffer 0]
    (dal_of_size 100) eq_refl)).
Defined.

Lemma dal_of_size_constructed (n : Z) :
  n <> 0 ->
  NewDAL (fun _ => None)
    (map option_fn [OptCluster (Some local_cluster); OptBuffer n]) =
  Ok (dal_of_size n).
Proof.
  intros Hn. rewrite NewDAL_unfold. simpl.
  destruct (Z.eqb_spec n 0) as [?|_]; done.
Qed.

(** C10 fails as stated: a negative buffer size is accepted, and the DAL
    constructed with it has a [maxSetSize] below 1. *)
Lemma NewDAL_negative_maxSetSize :
  exists d,
    NewDAL (fun _ => None)
      (map option_fn [OptCluster (Some local_cluster); OptBuffer (-1)])
      = Ok d /\
    ~ 1 <= maxSetSize d.
Proof. eexists. split; [reflexivity|]. simpl. lia. Qed.

(** ** The batch builder *)

Lemma NewListDeltaBatchBuilder_run (h : heap) :
  NewListDeltaBatchBuilder h =
  Some (length (builders h),
        mkHeap (batches h ++ [mkBatch [] []])
          (builders h ++ [mkBuilder (length (batches h))])).
Proof. reflexivity. Qed.

Lemma NewListDeltaBatchBuilder_valid (h h' : heap) (b : loc) :
  NewListDeltaBatchBuilder h = Some (b, h') ->
  exists p, valid_builder h' b p (mkBatch [] []).
Proof.
  rewrite NewListDeltaBatchBuilder_run. intros [= <- <-].
  exists (length (batches h)). split; simpl.
  - rewrite lookup_app_r by lia. by rewrite Nat.sub_diag.
  - rewrite lookup_app_r by lia. by rewrite Nat.sub_diag.
Qed.

Lemma AddUpdate_run (h : heap) (b p : loc) (pb : PutBatch)
    (u l c : string) (t : Time) :
  valid_builder h b p pb ->
  AddUpdate b u l c t h =
  Some (b, mkHeap
             (<[p := mkBatch (deletes pb)
                       (updates pb ++ [mkWrite (mkDelete u l c) t])]>
                (batches h))
             (builders h)).
Proof.
  intros [Hb Hp]. unfold AddUpdate, hbind, load_builder, load_batch,
    store_batch, hret.
  rewrite Hb. simpl. rewrite Hp. simpl. by rewrite Hp.
Qed.

Lemma AddDelete_run (h : heap) (b p : loc) (pb : PutBatch) (u l c : string) :
  valid_builder h b p pb ->
  AddDelete b u l c h =
  Some (b, mkHeap
             (<[p := mkBatch (deletes pb ++ [mkDelete u l c]) (updates pb)]>
                (batches h))
             (builders h)).
Proof.
  intros [Hb Hp]. unfold AddDelete, hbind, load_builder, load_batch,
    store_batch, hret.
  rewrite Hb. simpl. rewrite Hp. simpl. by rewrite Hp.
Qed.

Lemma Build_run (h : heap) (b p : loc) (pb : PutBatch) :
  valid_builder h b p pb -> Build b h = Some (p, h).
Proof.
  intros [Hb Hp]. unfold Build, hbind, load_builder, hret. by rewrite Hb.
Qed.

Lemma valid_builder_store (h : heap) (b p : loc) (pb pb' : PutBatch) :
  valid_builder h b p pb ->
  valid_builder (mkHeap (<[p := pb']> (batches h)) (builders h)) b p pb'.
Proof.
  intros [Hb Hp]. split; simpl; [done|].
  apply list_lookup_insert_eq. by eapply lookup_lt_Some.
Qed.



(** A chain of calls on a valid builder appends the calls' updates and
    deletes, each kind in call order, and returns the same builder. *)
Lemma do_calls_run (cs : list call) (h : heap) (b p : loc) (pb : PutBatch) :
  valid_builder h b p pb ->
  do_calls b cs h =
  Some (b, mkHeap
             (<[p := mkBatch (deletes pb ++ calls_deletes cs)
                       (updates pb ++ calls_updates cs)]> (batches h))
             (builders h)).
Proof.
  revert h pb. induction cs as [|c cs IH]; intros h pb Hv.
  - simpl. rewrite !app_nil_r. unfold hret. do 2 f_equal.
    destruct h as [bs bl]. simpl. f_equal.
    destruct Hv as [_ Hp]. simpl in Hp. destruct pb.
    symmetry. by apply list_insert_id.
  - cbn [do_calls]. unfold hbind. destruct c as [u l m t|u l m].
    + cbn [do_call]. rewrite (AddUpdate_run h b p pb u l m t Hv).
      rewrite (IH _ _ (valid_builder_store h b p pb _ Hv)). simpl.
      rewrite list_insert_insert_eq, <- !app_assoc. done.
    + cbn [do_call]. rewrite (AddDelete_run h b p pb u l m Hv).
      rewrite (IH _ _ (valid_builder_store h b p pb _ Hv)). simpl.
      rewrite list_insert_insert_eq, <- !app_assoc. done.
Qed.

(** The batch a fresh builder yields after a chain of calls. *)
Lemma build_batch_run (cs : list call) (h : heap) :
  exists h',
    build_batch cs h =
    Some (mkBatch (calls_deletes cs) (calls_updates cs), h').
Proof.
  unfold build_batch. unfold hbind at 1.
  rewrite NewListDeltaBatchBuilder_run.
  destruct (NewListDeltaBatchBuilder_valid h _ _
              (NewListDeltaBatchBuilder_run h)) as [p Hv].
  assert (p = length (batches h)) as ->.
  { destruct Hv as [Hb _]. simpl in Hb.
    rewrite lookup_app_r in Hb by lia. rewrite Nat.sub_diag in Hb.
    by inversion Hb. }
  unfold hbind at 1. rewrite (do_calls_run cs _ _ _ _ Hv). simpl.
  eexists. unfold hbind, Build, hbind, load_builder, hret, load_batch. simpl.
  rewrite lookup_app_r by lia. rewrite Nat.sub_diag. simpl.
  rewrite list_lookup_insert_eq; [done|].
  rewrite length_app. simpl. lia.
Qed.

(** ** Deletes after updates *)

Lemma members_sublist (z1 z2 : zset) (m : string) :
  z1 `sublist_of` z2 -> m ∈ members z1 -> m ∈ members z2.
Proof.
  intros Hs Hm. eapply elem_of_sublist; [exact Hm|].
  by apply fmap_sublist.
Qed.

Lemma members_exec_mono (c : command) (d : gmap string zset)
    (k m : string) :
  is_update c = false ->
  m ∈ members (zset_at k (snd (exec c d))) -> m ∈ members (zset_at k d).
Proof.
  destruct c as [k' s m'|k' m'|k' a b|k' a b]; simpl; [done| | |done];
    intros _; rewrite zset_at_store_set; case_decide; subst; try done.
  - apply members_sublist, zrem_sublist.
  - apply members_sublist, zremrangebyrank_sublist.
Qed.

Lemma members_apply_mono (cs : list command) (d : gmap string zset)
    (k m : string) :
  Forall (fun c => is_update c = false) cs ->
  m ∈ members (zset_at k (apply_commands cs d)) -> m ∈ members (zset_at k d).
Proof.
  revert d. induction cs as [|c cs IH]; intros d Hcs; [done|].
  apply Forall_cons in Hcs as [Hc Hcs]. simpl. intros Hm.
  apply (members_exec_mono c); [done|]. by apply IH.
Qed.

Lemma apply_deletes_absent (cs : list command) (d : gmap string zset)
    (k m : string) :
  Forall (fun c => is_update c = false) cs -> ZREM k m ∈ cs ->
  m ∉ members (zset_at k (apply_commands cs d)).
Proof.
  intros Hcs Hin.
  apply list_elem_of_split in Hin as (cs1 & cs2 & ->).
  apply Forall_app in Hcs as [_ Hcs]. apply Forall_cons in Hcs as [_ Hcs].
  rewrite apply_commands_app. simpl. intros Hm.
  apply members_apply_mono in Hm; [|done].
  rewrite zset_at_store_set_eq in Hm. by apply members_zrem in Hm.
Qed.

Lemma put_commands_tail_no_update (r : redisDAL)
    (ord : gmap string bool -> list string) (b : PutBatch) :
  Forall (fun c => is_update c = false)
    (map delete_command (deletes b)
     ++ map (truncate_command r) (ord (written_keys b))).
Proof.
  apply Forall_app. split; apply Forall_forall; intros c;
    rewrite list_elem_of_In, in_map_iff; by intros (x & <- & _).
Qed.

Lemma put_commands_update_index (r : redisDAL)
    (ord : gmap string bool -> list string) (b : PutBatch) (i : nat)
    (x : command) :
  put_commands r ord b !! i = Some x -> is_update x = true ->
  (i < length (updates b))%nat.
Proof.
  unfold put_commands. intros Hl Hx.
  destruct (decide (i < length (updates b))%nat) as [|Hge]; [done|].
  rewrite lookup_app_r in Hl by (rewrite length_map; lia).
  apply list_elem_of_lookup_2 in Hl.
  pose proof (put_commands_tail_no_update r ord b) as Hall.
  rewrite Forall_forall in Hall. rewrite (Hall x Hl) in Hx. done.
Qed.

Lemma put_commands_delete_index (r : redisDAL)
    (ord : gmap string bool -> list string) (b : PutBatch) (j : nat)
    (y : command) :
  put_commands r ord b !! j = Some y -> is_delete y = true ->
  (length (updates b) <= j)%nat.
Proof.
  unfold put_commands. intros Hl Hy.
  destruct (decide (length (updates b) <= j)%nat) as [|Hlt]; [done|].
  rewrite lookup_app_l in Hl by (rewrite length_map; lia).
  apply list_elem_of_lookup_2 in Hl.
  rewrite list_elem_of_In, in_map_iff in Hl. destruct Hl as (u & <- & _).
  done.
Qed.

(** Whatever a [Put] returns, what it sent is an initial part of its
    command sequence. *)
Lemma Put_sent_prefix (r : redisDAL) (ord : gmap string bool -> list string)
    (b : PutBatch) (w w' : world) (res : result unit) :
  Put r ord b w = (res, w') ->
  exists n, sent w' = sent w ++ take n (put_commands r ord b).
Proof.
  rewrite Put_outcome. unfold outcome.
  destruct (first_fault _ _ _) as [[i e]|]; intros [= <- <-]; simpl.
  - by exists (S i).
  - exists (length (put_commands r ord b)). by rewrite firstn_all.
Qed.

(** C5: in every [Put], each delete command is sent after each update
    command, whatever order the builder calls came in; and when the calls
    contain both an update and a delete of member [c] of list [(u, l)],
    a [Get] on that list after a successful [Put] does not return [c]
    ([Get] itself fails only if the transport fails its command). *)
Theorem delete_takes_precedence (r : redisDAL)
    (ord : gmap string bool -> list string) (calls : list call)
    (h h' : heap) (b : PutBatch) (w w' : world) (res : result unit) :
  build_batch calls h = Some (b, h') ->
  Put r ord b w = (res, w') ->
  (forall i j x y,
     sent w' !! i = Some x -> sent w' !! j = Some y ->
     (length (sent w) <= i)%nat -> (length (sent w) <= j)%nat ->
     is_update x = true -> is_delete y = true -> (i < j)%nat) /\
  (res = Ok tt ->
   forall u l c t n res' w'',
     CallUpdate u l c t ∈ calls -> CallDelete u l c ∈ calls ->
     Get r u l n w' = (res', w'') ->
     match res' with
     | Ok ms => c ∉ ms
     | Err e => fault w' (length (sent w')) = Some e
     end).
Proof.
  intros Hb HPut. split.
  - destruct (Put_sent_prefix r ord b w w' res HPut) as [n Hs].
    intros i j x y Hi Hj Hli Hlj Hx Hy. rewrite Hs in Hi, Hj.
    rewrite lookup_app_r in Hi, Hj by done.
    apply lookup_take_Some in Hi as [Hi _], Hj as [Hj _].
    pose proof (put_commands_update_index r ord b _ x Hi Hx).
    pose proof (put_commands_delete_index r ord b _ y Hj Hy). lia.
  - intros -> u l c t n res' w'' Hu Hd HGet.
    rewrite Get_run in HGet.
    destruct (fault w' (length (sent w'))) as [e|];
      injection HGet as <- _; [done|].
    intros Hc. apply (members_sublist _ _ _ (zrange_sublist _ _ _)) in Hc.
    apply Put_Ok_inv in HPut as (Hdb & _ & _). rewrite Hdb in Hc.
    unfold put_commands in Hc. rewrite apply_commands_app in Hc.
    revert Hc. apply apply_deletes_absent.
    + apply put_commands_tail_no_update.
    + destruct (build_batch_run calls h) as [h2 Hrun].
      rewrite Hrun in Hb. injection Hb as <- _. simpl.
      apply elem_of_app. left.
      apply list_elem_of_In, in_map_iff. exists (mkDelete u l c).
      split; [done|]. unfold calls_deletes. apply in_flat_map.
      exists (CallDelete u l c). split; [by apply list_elem_of_In|].
      simpl. auto.
Qed.

Lemma delete_takes_precedence_witness :
  let r := dal_of_size 100 in
  let b := mkBatch [mkDelete "u" "l" "c1"]
             [mkWrite (mkDelete "u" "l" "c1") (mkTime 9 0)] in
  let w := quiet_world one_member_db in
  fst <$> build_batch delete_then_update empty_heap = Some b /\
  fst (Put r range_keys b w) = Ok tt /\
  fst (Get r "u" "l" 10 (snd (Put r range_keys b w))) = Ok ["c0"] /\
  "c1" ∉ ["c0"].
Proof.
  cbv zeta. split; [reflexivity|]. split; [reflexivity|].
  split; [reflexivity|].
  pose (b := mkBatch [mkDelete "u" "l" "c1"]
               [mkWrite (mkDelete "u" "l" "c1") (mkTime 9 0)]).
  pose (w := quiet_world one_member_db).
  pose (w1 := snd (Put (dal_of_size 100) range_keys b w)).
  assert (build_batch delete_then_update empty_heap =
          Some (b, mkHeap [b] [mkBuilder 0])) as HB by reflexivity.
  assert (Put (dal_of_size 100) range_keys b w = (Ok tt, w1)) as HP
    by (vm_compute; reflexivity).
  assert (Get (dal_of_size 100) "u" "l" 10 w1 =
          (Ok ["c0"], snd (Get (dal_of_size 100) "u" "l" 10 w1))) as HG
    by (vm_compute; reflexivity).
  refine (proj2 (delete_takes_precedence (dal_of_size 100) range_keys
    delete_then_update empty_heap _ b w w1 (Ok tt) HB HP)
    eq_refl "u" "l" "c1" (mkTime 9 0) 10 (Ok ["c0"]) _ _ _ HG).
  - apply list_elem_of_In. right. left. reflexivity.
  - apply list_elem_of_In. left. reflexivity.
Defined.

(** ** Truncation *)

Lemma apply_commands_updates (us : list contactWriteMutation)
    (d : gmap string zset) :
  apply_commands (map update_command us) d = fold_left apply_update us d.
Proof. revert d. induction us as [|u us IH]; intros d; [done | apply IH]. Qed.

Lemma apply_commands_deletes (ds : list contactDeleteMutation)
    (d : gmap string zset) :
  apply_commands (map delete_command ds) d = fold_left apply_delete ds d.
Proof. revert d. induction ds as [|x ds IH]; intros d; [done | apply IH]. Qed.

Lemma apply_commands_batch (b : PutBatch) (d : gmap string zset) :
  apply_commands
    (map update_command (updates b) ++ map delete_command (deletes b)) d =
  apply_batch b d.
Proof.
  by rewrite apply_commands_app, apply_commands_updates,
    apply_commands_deletes.
Qed.


Lemma zset_at_truncate_all (r : redisDAL) (ks : list string)
    (d : gmap string zset) (k : string) :
  0 <= maxSetSize r -> NoDup ks ->
  zset_at k (apply_commands (map (truncate_command r) ks) d) =
  if decide (k ∈ ks) then most_recent (maxSetSize r) (zset_at k d)
  else zset_at k d.
Proof.
  intros Hn. revert d. induction ks as [|k0 ks IH]; intros d Hnd.
  - destruct (decide (k ∈ [])) as [H|_]; [by apply elem_of_nil in H | done].
  - apply NoDup_cons in Hnd as [Hk0 Hnd].
    change (apply_commands (map (truncate_command r) (k0 :: ks)) d)
      with (apply_commands (map (truncate_command r) ks)
              (store_set k0
                 (zremrangebyrank (zset_at k0 d) (maxSetSize r) (-1)) d)).
    rewrite (IH _ Hnd), zset_at_store_set, (truncate_take _ _ Hn).
    destruct (decide (k0 = k)) as [->|Hne].
    + destruct (decide (k ∈ ks)) as [?|_]; [done|].
      destruct (decide (k ∈ k :: ks)) as [_|Hout]; [done|].
      destruct Hout. apply list_elem_of_here.
    + destruct (decide (k ∈ ks)) as [Hin|Hout];
        destruct (decide (k ∈ k0 :: ks)) as [Hin'|Hout']; try done.
      * destruct Hout'. by apply list_elem_of_further.
      * apply elem_of_cons in Hin' as [->|?]; done.
Qed.

Lemma key_order_NoDup (ord : gmap string bool -> list string)
    (m : gmap string bool) : key_order ord -> NoDup (ord m).
Proof. intros Ho. rewrite (Ho m). apply NoDup_fst_map_to_list. Qed.

Lemma key_order_elem (ord : gmap string bool -> list string)
    (m : gmap string bool) (k : string) :
  key_order ord -> k ∈ ord m <-> is_Some (m !! k).
Proof.
  intros Ho. rewrite (Ho m), list_elem_of_fmap. split.
  - intros ([k' v] & -> & Hin). apply elem_of_map_to_list in Hin. by exists v.
  - intros [v Hv]. exists (k, v). split; [done|].
    by apply elem_of_map_to_list.
Qed.

Lemma fold_insert_lookup_None {A} (f : A -> string) (l : list A)
    (wk : gmap string bool) (k : string) :
  fold_left (fun wk x => <[f x := true]> wk) l wk !! k = None <->
  wk !! k = None /\ forall x, x ∈ l -> f x ≠ k.
Proof.
  revert wk. induction l as [|a l IH]; intros wk; simpl.
  - split; [intros ?; split; [done|] | by intros [? _]].
    intros x Hx. by apply elem_of_nil in Hx.
  - rewrite IH, lookup_insert_None. split.
    + intros [[Hwk Ha] Hl]. split; [done|].
      intros x [->|Hx]%elem_of_cons; auto.
    + intros [Hwk Hl]. split; [split; [done|]|].
      * apply Hl, list_elem_of_here.
      * intros x Hx. by apply Hl, list_elem_of_further.
Qed.

Lemma written_keys_None (b : PutBatch) (k : string) :
  written_keys b !! k = None <->
  (forall u, u ∈ updates b -> update_key u ≠ k) /\
  (forall x, x ∈ deletes b -> delete_key x ≠ k).
Proof.
  unfold written_keys. rewrite !fold_insert_lookup_None, lookup_empty.
  tauto.
Qed.

Lemma zset_at_apply_batch_other (b : PutBatch) (d : gmap string zset)
    (k : string) :
  written_keys b !! k = None -> zset_at k (apply_batch b d) = zset_at k d.
Proof.
  rewrite written_keys_None. intros [Hu Hd]. unfold apply_batch.
  assert (forall ds d', (forall x, x ∈ ds -> delete_key x ≠ k) ->
          zset_at k (fold_left apply_delete ds d') = zset_at k d') as HD.
  { induction ds as [|x ds IH]; intros d' Hds; [done|]. simpl.
    rewrite IH by (intros y Hy; by apply Hds, list_elem_of_further).
    apply zset_at_store_set_ne, Hds, list_elem_of_here. }
  assert (forall us d', (forall u, u ∈ us -> update_key u ≠ k) ->
          zset_at k (fold_left apply_update us d') = zset_at k d') as HU.
  { induction us as [|u us IH]; intros d' Hus; [done|]. simpl.
    rewrite IH by (intros y Hy; by apply Hus, list_elem_of_further).
    apply zset_at_store_set_ne, Hus, list_elem_of_here. }
  rewrite HD by done. by apply HU.
Qed.


(** The store after a successful [Put], key by key. *)
Lemma Put_Ok_zset_at (r : redisDAL) (ord : gmap string bool -> list string)
    (b : PutBatch) (w w' : world) (k : string) :
  0 <= maxSetSize r -> key_order ord -> Put r ord b w = (Ok tt, w') ->
  zset_at k (db w') =
  if decide (is_Some (written_keys b !! k))
  then most_recent (maxSetSize r) (zset_at k (apply_batch b (db w)))
  else zset_at k (db w).
Proof.
  intros Hn Ho HPut. apply Put_Ok_inv in HPut as (-> & _ & _).
  unfold put_commands. rewrite app_assoc, apply_commands_app.
  rewrite apply_commands_batch.
  rewrite zset_at_truncate_all by (done || by apply key_order_NoDup).
  destruct (decide (is_Some (written_keys b !! k))) as [Hs|Hs].
  - rewrite decide_True by (by apply key_order_elem). done.
  - rewrite decide_False by (by rewrite key_order_elem).
    apply zset_at_apply_batch_other.
    by apply eq_None_not_Some.
Qed.


Lemma key_order_range_keys : key_order range_keys.
Proof. intros m. reflexivity. Qed.



(** ** Writing the same update twice *)






Lemma key_order_singleton (ord : gmap string bool -> list string)
    (k : string) :
  key_order ord -> ord (<[k := true]> ∅) = [k].
Proof.
  intros Ho. apply Permutation_singleton_r. rewrite (Ho _).
  by rewrite insert_empty, map_to_list_singleton.
Qed.





(* ===================================================================== *)
(** * Part III: further properties of the code                            *)
(* ===================================================================== *)

(** ** [Get] *)

Lemma wf_three_member_db : wf_db three_member_db.
Proof.
  intros k z Hk. unfold three_member_db in Hk.
  apply lookup_singleton_Some in Hk as [_ <-].
  apply (bool_decide_unpack _). by vm_compute.
Qed.

Lemma sorted_lookup_score (z : zset) (i j : nat) (ei ej : entry) :
  StronglySorted entry_le z ->
  z !! i = Some ei -> z !! j = Some ej -> (i < j)%nat -> score ei <= score ej.
Proof.
  intros Hs Hi Hj Hlt. apply entry_le_score.
  rewrite <- (take_drop j z) in Hs.
  eapply (StronglySorted_app_1_elem_of _ _ _ _ _ Hs).
  - apply list_elem_of_lookup. exists i.
    rewrite lookup_take_lt by done. exact Hi.
  - apply list_elem_of_lookup. exists 0%nat.
    rewrite lookup_drop, Nat.add_0_r. exact Hj.
Qed.

(** For a size that is not negative, a [Get] that succeeds returns the
    members at ranks 0 to [maxSize] of the list, in rank order, so that a
    member never comes before one with a smaller score (a more recent
    one); the store is left as it was. *)
Theorem Get_returns_lowest_ranks (r : redisDAL) (u l : string) (n : Z)
    (w w' : world) (ms : list string) :
  0 <= n -> wf_db (db w) -> Get r u l n w = (Ok ms, w') ->
  let zs := take (Z.to_nat (n + 1)) (zset_at (createKey u l) (db w)) in
  ms = members zs /\
  (forall i j ei ej, zs !! i = Some ei -> zs !! j = Some ej ->
     (i < j)%nat -> score ei <= score ej) /\
  db w' = db w.
Proof.
  intros Hn Hwf. rewrite Get_run.
  destruct (fault w (length (sent w))); [done|]. intros [= <- <-].
  cbv zeta. rewrite zrange_take by done. split_and!; [done| |done].
  intros i j ei ej. apply sorted_lookup_score.
  eapply StronglySorted_sublist; [apply sublist_take|].
  by apply wf_zset_at.
Qed.

Lemma Get_returns_lowest_ranks_witness :
  0 <= 1 /\ wf_db three_member_db /\
  fst (Get (dal_of_size 100) "u" "l" 1 (quiet_world three_member_db)) =
    Ok ["c"; "b"] /\
  ["c"; "b"] =
    members (take (Z.to_nat (1 + 1)) (zset_at (createKey "u" "l")
                                        three_member_db)).
Proof.
  split; [lia|]. split; [exact wf_three_member_db|].
  split; [reflexivity|].
  assert (Get (dal_of_size 100) "u" "l" 1 (quiet_world three_member_db) =
          (Ok ["c"; "b"],
           snd (Get (dal_of_size 100) "u" "l" 1
                  (quiet_world three_member_db)))) as HG
    by (vm_compute; reflexivity).
  assert (0 <= 1) as Hn by lia.
  exact (proj1 (Get_returns_lowest_ranks (dal_of_size 100) "u" "l" 1
    (quiet_world three_member_db) _ ["c"; "b"] Hn wf_three_member_db HG)).
Defined.

(** For a negative size [Get] counts the last rank from the end of the
    list: [-1] returns every member, [-2] all but the last, and so on. *)
Theorem Get_negative_maxSize (r : redisDAL) (u l : string) (n : Z)
    (w w' : world) (ms : list string) :
  n < 0 -> Get r u l n w = (Ok ms, w') ->
  let z := zset_at (createKey u l) (db w) in
  ms = members (take (Z.to_nat (Z.of_nat (length z) + n + 1)) z) /\
  (n = -1 -> ms = members z).
Proof.
  intros Hn. rewrite Get_run.
  destruct (fault w (length (sent w))); [done|]. intros [= <- _].
  cbv zeta. set (z := zset_at (createKey u l) (db w)).
  assert (zrange z 0 n =
          take (Z.to_nat (Z.of_nat (length z) + n + 1)) z) as E.
  { unfold zrange, rank_window. cbv zeta.
    assert ((n <? 0) = true) as En by (apply Z.ltb_lt; lia).
    change (0 <? 0) with false. rewrite En. cbv iota.
    set (len := Z.of_nat (length z)).
    assert (len = Z.of_nat (length z)) as Hlen by done. clearbody len.
    simpl.
    destruct (Z.ltb_spec (len + n) 0) as [H1|H1]; simpl.
    { replace (Z.to_nat (len + n + 1)) with 0%nat by lia. done. }
    destruct (Z.leb_spec len 0) as [H2|H2]; simpl; [lia|].
    destruct (Z.leb_spec len (len + n)) as [H3|H3]; [lia|].
    change (Z.to_nat 0) with 0%nat. rewrite drop_0. f_equal. lia. }
  rewrite E. split; [done|]. intros ->. f_equal. apply take_ge. lia.
Qed.

Lemma Get_negative_maxSize_witness :
  -1 < 0 /\
  fst (Get (dal_of_size 100) "u" "l" (-1) (quiet_world three_member_db)) =
    Ok ["c"; "b"; "a"] /\
  ["c"; "b"; "a"] = members (zset_at (createKey "u" "l") three_member_db).
Proof.
  split; [lia|]. split; [reflexivity|].
  assert (Get (dal_of_size 100) "u" "l" (-1) (quiet_world three_member_db) =
          (Ok ["c"; "b"; "a"],
           snd (Get (dal_of_size 100) "u" "l" (-1)
                  (quiet_world three_member_db)))) as HG
    by (vm_compute; reflexivity).
  assert (-1 < 0) as Hn by lia.
  exact (proj2 (Get_negative_maxSize (dal_of_size 100) "u" "l" (-1)
    (quiet_world three_member_db) _ ["c"; "b"; "a"] Hn HG) eq_refl).
Defined.

(** A list that was never written, or whose last member was removed, is
    read as the empty list, not as an error, whatever size is asked for;
    [Get] fails only when the transport fails its one command. *)
Theorem Get_missing_key (r : redisDAL) (u l : string) (n : Z) (w : world) :
  db w !! createKey u l = None ->
  match fault w (length (sent w)) with
  | None => fst (Get r u l n w) = Ok []
  | Some e => fst (Get r u l n w) = Err e
  end.
Proof.
  intros Hk. rewrite Get_run.
  destruct (fault w (length (sent w))); [done|]. simpl.
  unfold zset_at. rewrite Hk. simpl.
  assert (zrange [] 0 n = []) as ->; [|done].
  pose proof (zrange_sublist [] 0 n) as Hs.
  by apply sublist_nil_r in Hs.
Qed.

Lemma Get_missing_key_witness :
  fst (Get (dal_of_size 100) "nobody" "nothing" 10
         (quiet_world three_member_db)) = Ok [].
Proof.
  exact (Get_missing_key (dal_of_size 100) "nobody" "nothing" 10
           (quiet_world three_member_db) eq_refl).
Defined.

(** ** [Put] *)

Lemma key_order_empty (ord : gmap string bool -> list string) :
  key_order ord -> ord ∅ = [].
Proof.
  intros Ho. apply Permutation_nil_r. rewrite (Ho ∅).
  by rewrite map_to_list_empty.
Qed.

(** A [Put] of an empty batch sends nothing and succeeds, also on a
    connection on which every command would fail; the world is left as it
    was. *)
Theorem Put_empty_batch (r : redisDAL) (ord : gmap string bool -> list string)
    (w : world) :
  key_order ord -> Put r ord (mkBatch [] []) w = (Ok tt, w).
Proof.
  intros Ho. unfold Put. cbn [updates deletes foldM]. unfold bind, ret.
  by rewrite (key_order_empty ord Ho).
Qed.

Lemma Put_empty_batch_witness :
  key_order range_keys /\
  Put (dal_of_size 100) range_keys (mkBatch [] [])
    (mkWorld three_member_db [] (fun _ => Some "down")) =
  (Ok tt, mkWorld three_member_db [] (fun _ => Some "down")).
Proof.
  split; [exact key_order_range_keys|].
  exact (Put_empty_batch (dal_of_size 100) range_keys
           (mkWorld three_member_db [] (fun _ => Some "down"))
           key_order_range_keys).
Defined.

Lemma Put_db_prefix (r : redisDAL) (ord : gmap string bool -> list string)
    (b : PutBatch) (w w' : world) (res : result unit) :
  Put r ord b w = (res, w') ->
  exists n, db w' = apply_commands (take n (put_commands r ord b)) (db w).
Proof.
  rewrite Put_outcome. unfold outcome.
  destruct (first_fault _ _ _) as [[i e]|]; intros [= <- <-]; simpl.
  - by exists i.
  - exists (length (put_commands r ord b)). by rewrite firstn_all.
Qed.

(** Whatever a [Put] returns, success or the error of a command in the
    middle of the batch, every list of the store is still a sorted set:
    in rank order and without a member twice. *)
Theorem Put_preserves_sorted_sets (r : redisDAL)
    (ord : gmap string bool -> list string) (b : PutBatch) (w w' : world)
    (res : result unit) :
  wf_db (db w) -> Put r ord b w = (res, w') -> wf_db (db w').
Proof.
  intros Hwf HPut. destruct (Put_db_prefix r ord b w w' res HPut) as [n ->].
  by apply wf_db_apply_commands.
Qed.

Lemma Put_preserves_sorted_sets_witness :
  wf_db three_member_db /\
  wf_db (db (snd (Put (dal_of_size 2) range_keys mixed_batch
                    (mkWorld three_member_db [] (failing_at 2 "reset"))))).
Proof.
  split; [exact wf_three_member_db|].
  exact (Put_preserves_sorted_sets (dal_of_size 2) range_keys mixed_batch
           (mkWorld three_member_db [] (failing_at 2 "reset")) _ _
           wf_three_member_db (surjective_pairing _)).
Defined.

Lemma exec_other_key (c : command) (d : gmap string zset) (k : string) :
  command_key c ≠ k -> zset_at k (snd (exec c d)) = zset_at k d.
Proof.
  destruct c as [k' s m|k' m|k' a b|k' a b]; simpl; intros Hne;
    try by apply zset_at_store_set_ne.
  done.
Qed.

Lemma apply_commands_other_key (cs : list command) (d : gmap string zset)
    (k : string) :
  Forall (fun c => command_key c ≠ k) cs ->
  zset_at k (apply_commands cs d) = zset_at k d.
Proof.
  revert d. induction cs as [|c cs IH]; intros d Hcs; [done|].
  apply Forall_cons in Hcs as [Hc Hcs]. simpl.
  rewrite IH by done. by apply exec_other_key.
Qed.

Lemma fold_insert_lookup_Some {A} (f : A -> string) (l : list A)
    (wk : gmap string bool) (k : string) :
  is_Some (fold_left (fun wk x => <[f x := true]> wk) l wk !! k) <->
  is_Some (wk !! k) \/ exists x, x ∈ l /\ f x = k.
Proof.
  revert wk. induction l as [|a l IH]; intros wk; simpl.
  - split; [by left|]. intros [?|(x & Hx & _)]; [done|].
    by apply elem_of_nil in Hx.
  - rewrite IH, lookup_insert_is_Some. split.
    + intros [[<-|[_ Hs]]|(x & Hx & <-)].
      * right. exists a. split; [apply list_elem_of_here | done].
      * by left.
      * right. exists x. split; [by apply list_elem_of_further | done].
    + intros [Hs|(x & [->|Hx]%elem_of_cons & <-)].
      * destruct (decide (f a = k)); [left; by left | left; right; done].
      * left. by left.
      * right. by exists x.
Qed.

(** The keys [Put] collects are the keys of the batch's mutations. *)
Lemma written_keys_Some (b : PutBatch) (k : string) :
  is_Some (written_keys b !! k) <->
  (exists u, u ∈ updates b /\ update_key u = k) \/
  (exists x, x ∈ deletes b /\ delete_key x = k).
Proof.
  unfold written_keys. rewrite !fold_insert_lookup_Some, lookup_empty.
  split.
  - intros [[[? ?]|?]|?]; [done|by left|by right].
  - intros [?|?]; [left; by right | by right].
Qed.

Lemma put_commands_keys (r : redisDAL)
    (ord : gmap string bool -> list string) (b : PutBatch) (c : command) :
  key_order ord -> c ∈ put_commands r ord b ->
  is_Some (written_keys b !! command_key c).
Proof.
  intros Ho. unfold put_commands.
  rewrite !elem_of_app, !list_elem_of_In, !in_map_iff.
  intros [(u & <- & Hu)|[(x & <- & Hx)|(k & <- & Hk)]]; simpl.
  - apply written_keys_Some. left. exists u.
    by rewrite list_elem_of_In.
  - apply written_keys_Some. right. exists x.
    by rewrite list_elem_of_In.
  - apply (key_order_elem ord _ k Ho). by apply list_elem_of_In.
Qed.

(** A [Put] changes no list other than those its batch names, whether it
    succeeds or stops at a failed command. *)
Theorem Put_leaves_other_lists (r : redisDAL)
    (ord : gmap string bool -> list string) (b : PutBatch) (w w' : world)
    (res : result unit) (k : string) :
  key_order ord -> Put r ord b w = (res, w') ->
  (forall u, u ∈ updates b -> update_key u ≠ k) ->
  (forall x, x ∈ deletes b -> delete_key x ≠ k) ->
  zset_at k (db w') = zset_at k (db w).
Proof.
  intros Ho HPut Hu Hd.
  destruct (Put_db_prefix r ord b w w' res HPut) as [n ->].
  apply apply_commands_other_key, Forall_forall. intros c Hc Hk.
  assert (c ∈ put_commands r ord b) as Hc'
    by (eapply elem_of_sublist; [exact Hc | apply sublist_take]).
  apply (put_commands_keys r ord b c Ho) in Hc'. rewrite Hk in Hc'.
  apply written_keys_Some in Hc' as [(u & Hin & E)|(x & Hin & E)].
  - by apply (Hu u).
  - by apply (Hd x).
Qed.

Lemma Put_leaves_other_lists_witness :
  key_order range_keys /\
  zset_at "u_l"
    (db (snd (Put (dal_of_size 1) range_keys mixed_batch
                (quiet_world three_member_db)))) =
  zset_at "u_l" three_member_db.
Proof.
  split; [exact key_order_range_keys|].
  refine (Put_leaves_other_lists (dal_of_size 1) range_keys mixed_batch
            (quiet_world three_member_db) _ _ "u_l" key_order_range_keys
            (surjective_pairing _) _ _).
  - intros x Hx. apply list_elem_of_In in Hx. simpl in Hx.
    decompose [or] Hx; subst; try done.
  - intros x Hx. apply list_elem_of_In in Hx. simpl in Hx.
    decompose [or] Hx; subst; try done.
Defined.

(** A successful [Put] has sent one [ZADD] per update, one [ZREM] per
    delete, and then one [ZREMRANGEBYRANK] per key of the batch: a key
    named by several mutations is truncated once, not once per
    mutation. *)
Theorem Put_truncates_each_key_once (r : redisDAL)
    (ord : gmap string bool -> list string) (b : PutBatch) (w w' : world) :
  key_order ord -> Put r ord b w = (Ok tt, w') ->
  exists ks,
    sent w' =
      sent w ++ map update_command (updates b)
      ++ map delete_command (deletes b) ++ map (truncate_command r) ks /\
    NoDup ks /\
    (forall k, k ∈ ks <->
       (exists u, u ∈ updates b /\ update_key u = k) \/
       (exists x, x ∈ deletes b /\ delete_key x = k)) /\
    length (sent w') =
      (length (sent w) + length (updates b) + length (deletes b)
       + length ks)%nat.
Proof.
  intros Ho HPut. apply Put_Ok_inv in HPut as (_ & Hs & _).
  exists (ord (written_keys b)). split_and!.
  - exact Hs.
  - by apply key_order_NoDup.
  - intros k. rewrite (key_order_elem ord _ k Ho). apply written_keys_Some.
  - rewrite Hs. unfold put_commands.
    rewrite !length_app, !length_map. lia.
Qed.

Lemma Put_truncates_each_key_once_witness :
  key_order range_keys /\
  exists ks,
    sent (snd (Put (dal_of_size 5) range_keys mixed_batch (quiet_world ∅))) =
      [] ++ map update_command (updates mixed_batch)
      ++ map delete_command (deletes mixed_batch)
      ++ map (truncate_command (dal_of_size 5)) ks /\
    NoDup ks.
Proof.
  split; [exact key_order_range_keys|].
  assert (Put (dal_of_size 5) range_keys mixed_batch (quiet_world ∅) =
          (Ok tt, snd (Put (dal_of_size 5) range_keys mixed_batch
                         (quiet_world ∅)))) as HP
    by (vm_compute; reflexivity).
  destruct (Put_truncates_each_key_once (dal_of_size 5) range_keys
              mixed_batch (quiet_world ∅) _ key_order_range_keys HP)
    as (ks & Hs & Hn & _).
  exists ks. split; [exact Hs | exact Hn].
Defined.

Lemma zrem_zinsert (m : string) (s : Z) (z : zset) :
  zrem m (zinsert (m, s) z) = zrem m z.
Proof.
  unfold zrem. induction z as [|x z IH]; simpl.
  - by rewrite filter_cons_False, filter_nil by (simpl; auto).
  - destruct (entry_leb (m, s) x).
    + by rewrite filter_cons_False by (simpl; auto).
    + destruct (decide (member x ≠ m)).
      * rewrite !filter_cons_True by done. by rewrite IH.
      * rewrite !filter_cons_False by done. done.
Qed.

Lemma zrem_zrem (m : string) (z : zset) : zrem m (zrem m z) = zrem m z.
Proof. apply zrem_absent, members_zrem. Qed.

(** A second score for a member replaces the first. *)
Lemma zadd_zadd (m : string) (s1 s2 : Z) (z : zset) :
  zadd m s2 (zadd m s1 z) = zadd m s2 z.
Proof. unfold zadd. by rewrite zrem_zinsert, zrem_zrem. Qed.

Lemma apply_update_twice (d : gmap string zset) (u l c : string)
    (t1 t2 : Time) :
  apply_update (apply_update d (mkWrite (mkDelete u l c) t1))
    (mkWrite (mkDelete u l c) t2) =
  apply_update d (mkWrite (mkDelete u l c) t2).
Proof.
  unfold apply_update, update_key. simpl.
  by rewrite zset_at_store_set_eq, store_set_twice, zadd_zadd.
Qed.

Lemma apply_updates_same_member (d : gmap string zset) (u l c : string)
    (ts : list Time) (t : Time) :
  fold_left apply_update
    (map (fun t' => mkWrite (mkDelete u l c) t') (ts ++ [t])) d =
  apply_update d (mkWrite (mkDelete u l c) t).
Proof.
  revert d. induction ts as [|t1 ts IH]; intros d; [done|].
  simpl. rewrite IH.
  destruct ts as [|t2 ts].
  - simpl. apply apply_update_twice.
  - clear IH. revert d t1. generalize (t2 :: ts). clear t2 ts.
    intros ts d t1. apply apply_update_twice.
Qed.

Lemma written_keys_same_member (u l c : string) (ts : list Time) (t : Time) :
  written_keys
    (mkBatch [] (map (fun t' => mkWrite (mkDelete u l c) t') (ts ++ [t]))) =
  <[createKey u l := true]> ∅.
Proof.
  unfold written_keys. cbn [deletes updates fold_left].
  assert (forall (l' : list Time) (wk : gmap string bool),
    fold_left (fun wk w => <[update_key w := true]> wk)
      (map (fun t' => mkWrite (mkDelete u l c) t') l')
      (<[createKey u l := true]> wk) = <[createKey u l := true]> wk) as Hgen.
  { induction l' as [|t' l' IH]; intros wk; [done|]. simpl.
    change (update_key (mkWrite (mkDelete u l c) t')) with (createKey u l).
    by rewrite insert_insert_eq. }
  destruct ts as [|t0 ts]; simpl; [done|].
  change (update_key (mkWrite (mkDelete u l c) t0)) with (createKey u l).
  apply Hgen.
Qed.

(** A batch that updates one member several times has the effect of its
    last update alone: two successful [Put]s from the same store, one of
    the whole batch and one of only the last update, leave equal stores
    (the first has sent more commands). *)
Theorem Put_last_update_wins (r : redisDAL)
    (ord1 ord2 : gmap string bool -> list string) (u l c : string)
    (ts : list Time) (t : Time) (w w1 w2 : world) :
  key_order ord1 -> key_order ord2 ->
  Put r ord1
    (mkBatch [] (map (fun t' => mkWrite (mkDelete u l c) t') (ts ++ [t])))
    w = (Ok tt, w1) ->
  Put r ord2 (mkBatch [] [mkWrite (mkDelete u l c) t]) w = (Ok tt, w2) ->
  db w1 = db w2 /\
  length (sent w1) = (length (sent w2) + length ts)%nat.
Proof.
  intros Ho1 Ho2 HP1 HP2.
  apply Put_Ok_inv in HP1 as (Hd1 & Hs1 & _).
  apply Put_Ok_inv in HP2 as (Hd2 & Hs2 & _).
  unfold put_commands in *.
  rewrite (written_keys_same_member u l c ts t) in Hd1, Hs1.
  pose proof (written_keys_same_member u l c [] t) as Hk.
  simpl in Hk. rewrite Hk in Hd2, Hs2. clear Hk.
  rewrite (key_order_singleton ord1 _ Ho1) in Hd1, Hs1.
  rewrite (key_order_singleton ord2 _ Ho2) in Hd2, Hs2.
  cbn [deletes updates map app] in Hd1, Hd2, Hs1, Hs2.
  split.
  - rewrite Hd1, Hd2. rewrite !apply_commands_app.
    rewrite apply_commands_updates, apply_updates_same_member.
    done.
  - rewrite Hs1, Hs2. rewrite !length_app, !length_map, length_app.
    simpl. lia.
Qed.

Lemma Put_last_update_wins_witness :
  key_order range_keys /\
  db (snd (Put (dal_of_size 5) range_keys repeated_update
             (quiet_world three_member_db))) =
  db (snd (Put (dal_of_size 5) range_keys
             (mkBatch [] [update_of "u" "l" "c" 7])
             (quiet_world three_member_db))).
Proof.
  split; [exact key_order_range_keys|].
  assert (Put (dal_of_size 5) range_keys
            (mkBatch []
               (map (fun t' => mkWrite (mkDelete "u" "l" "c") t')
                  ([mkTime 9 0; mkTime 3 0] ++ [mkTime 7 0])))
            (quiet_world three_member_db) =
          (Ok tt, snd (Put (dal_of_size 5) range_keys repeated_update
                         (quiet_world three_member_db)))) as HP1
    by (vm_compute; reflexivity).
  assert (Put (dal_of_size 5) range_keys
            (mkBatch [] [mkWrite (mkDelete "u" "l" "c") (mkTime 7 0)])
            (quiet_world three_member_db) =
          (Ok tt, snd (Put (dal_of_size 5) range_keys
                         (mkBatch [] [update_of "u" "l" "c" 7])
                         (quiet_world three_member_db)))) as HP2
    by (vm_compute; reflexivity).
  exact (proj1 (Put_last_update_wins (dal_of_size 5) range_keys range_keys
    "u" "l" "c" [mkTime 9 0; mkTime 3 0] (mkTime 7 0)
    (quiet_world three_member_db) _ _ key_order_range_keys
    key_order_range_keys HP1 HP2)).
Defined.

Lemma exec_sublist (c : command) (d : gmap string zset) (k : string) :
  is_update c = false ->
  zset_at k (snd (exec c d)) `sublist_of` zset_at k d.
Proof.
  destruct c as [k' s m|k' m|k' a b|k' a b]; simpl; [done| | |done];
    intros _; rewrite zset_at_store_set; case_decide; subst; try done.
  - apply zrem_sublist.
  - apply zremrangebyrank_sublist.
Qed.

Lemma apply_commands_sublist (cs : list command) (d : gmap string zset)
    (k : string) :
  Forall (fun c => is_update c = false) cs ->
  zset_at k (apply_commands cs d) `sublist_of` zset_at k d.
Proof.
  revert d. induction cs as [|c cs IH]; intros d Hcs; [done|].
  apply Forall_cons in Hcs as [Hc Hcs]. simpl.
  etransitivity; [by apply IH | by apply exec_sublist].
Qed.

(** A [Put] whose batch holds no update never adds a member and never
    reorders a list: after it, whatever it returned and whatever
    [maxSetSize] is, each list is what is left of the list before when
    some members are taken out; and every deleted member is gone from its
    list when the [Put] succeeded. *)
Theorem Put_deletes_only_shrink (r : redisDAL)
    (ord : gmap string bool -> list string)
    (ds : list contactDeleteMutation) (w w' : world) (res : result unit)
    (k : string) :
  Put r ord (mkBatch ds []) w = (res, w') ->
  zset_at k (db w') `sublist_of` zset_at k (db w) /\
  (res = Ok tt ->
   forall x, x ∈ ds ->
     contactID x ∉ members (zset_at (delete_key x) (db w'))).
Proof.
  intros HPut. split.
  - destruct (Put_db_prefix r ord _ w w' res HPut) as [n ->].
    apply apply_commands_sublist.
    pose proof (put_commands_tail_no_update r ord (mkBatch ds [])) as Hall.
    unfold put_commands. cbn [updates map app].
    rewrite Forall_forall in Hall |- *. intros c Hc. apply Hall.
    eapply elem_of_sublist; [exact Hc | apply sublist_take].
  - intros -> x Hx. apply Put_Ok_inv in HPut as (-> & _ & _).
    unfold put_commands. cbn [updates map app].
    apply apply_deletes_absent.
    + apply (put_commands_tail_no_update r ord (mkBatch ds [])).
    + apply elem_of_app. left. apply list_elem_of_In, in_map_iff.
      exists x. split; [done | by apply list_elem_of_In].
Qed.

Lemma Put_deletes_only_shrink_witness :
  zset_at "u_l"
    (db (snd (Put (dal_of_size 100) range_keys delete_batch
                (quiet_world three_member_db))))
    `sublist_of` zset_at "u_l" three_member_db.
Proof.
  exact (proj1 (Put_deletes_only_shrink (dal_of_size 100) range_keys
    (deletes delete_batch) (quiet_world three_member_db) _ _ "u_l"
    (surjective_pairing _))).
Defined.

(** ** [Put] followed by [Get] *)

(** After a successful [Put] by a DAL whose [maxSetSize] is not negative,
    a [Get] on a list the batch touched returns at most [maxSetSize]
    members, whatever size it is asked for; and asked for
    [maxSetSize - 1] or more it returns the whole list. *)
Theorem Put_then_Get_bounded (r : redisDAL)
    (ord : gmap string bool -> list string) (b : PutBatch) (u l : string)
    (n : Z) (w w' w'' : world) (ms : list string) :
  wf_db (db w) -> 0 <= maxSetSize r -> key_order ord ->
  Put r ord b w = (Ok tt, w') ->
  is_Some (written_keys b !! createKey u l) ->
  Get r u l n w' = (Ok ms, w'') ->
  Z.of_nat (length ms) <= maxSetSize r /\
  (maxSetSize r - 1 <= n ->
   ms = members (zset_at (createKey u l) (db w'))).
Proof.
  intros Hwf Hn Ho HPut Hk HGet.
  assert (Z.of_nat (length (zset_at (createKey u l) (db w')))
          <= maxSetSize r) as Hlen.
  { rewrite (Put_Ok_zset_at r ord b w w' _ Hn Ho HPut).
    rewrite decide_True by done. unfold most_recent.
    rewrite length_take. lia. }
  rewrite Get_run in HGet.
  destruct (fault w' (length (sent w'))); [done|].
  injection HGet as <- _. split.
  - unfold members. rewrite length_fmap.
    pose proof (sublist_length _ _
      (zrange_sublist (zset_at (createKey u l) (db w')) 0 n)). lia.
  - intros Hge. f_equal.
    destruct (decide (0 <= n)) as [Hn0|Hn0].
    + rewrite zrange_take by done. apply take_ge. lia.
    + assert (zset_at (createKey u l) (db w') = []) as ->.
      { apply length_zero_iff_nil. lia. }
      pose proof (zrange_sublist [] 0 n) as Hs.
      by apply sublist_nil_r in Hs.
Qed.

Lemma Put_then_Get_bounded_witness :
  wf_db three_member_db /\ key_order range_keys /\
  Z.of_nat (length ["c"; "b"]) <= maxSetSize (dal_of_size 2).
Proof.
  split; [exact wf_three_member_db|].
  split; [exact key_order_range_keys|].
  pose (w := quiet_world three_member_db).
  pose (w1 := snd (Put (dal_of_size 2) range_keys one_update w)).
  assert (Put (dal_of_size 2) range_keys one_update w = (Ok tt, w1)) as HP
    by (vm_compute; reflexivity).
  assert (Get (dal_of_size 2) "u" "l" 50 w1 =
          (Ok ["c"; "b"], snd (Get (dal_of_size 2) "u" "l" 50 w1))) as HG
    by (vm_compute; reflexivity).
  assert (0 <= maxSetSize (dal_of_size 2)) as Hn by (simpl; lia).
  assert (is_Some (written_keys one_update !! createKey "u" "l")) as Hk
    by (exists true; reflexivity).
  exact (proj1 (Put_then_Get_bounded (dal_of_size 2) range_keys one_update
    "u" "l" 50 w w1 _ ["c"; "b"] wf_three_member_db Hn key_order_range_keys
    HP Hk HG)).
Defined.

(** ** Keys, continued *)

(** Owner ids of equal length never collide, whatever bytes they
    contain: in particular the lists of one owner all get different
    keys. *)
Theorem createKey_injective_equal_length (u1 l1 u2 l2 : string) :
  String.length u1 = String.length u2 ->
  createKey u1 l1 = createKey u2 l2 -> u1 = u2 /\ l1 = l2.
Proof.
  revert u2. induction u1 as [|c1 u1 IH]; intros [|c2 u2] Hlen E;
    try discriminate Hlen.
  - unfold createKey in E. simpl in E. by inversion E.
  - rewrite !createKey_head in E. inversion E; subst c2.
    simpl in Hlen. injection Hlen as Hlen.
    destruct (IH u2 Hlen) as [-> ->]; done.
Qed.

Lemma createKey_injective_equal_length_witness :
  String.length "a_b" = String.length "a_b" /\
  (createKey "a_b" "c" = createKey "a_b" "c" -> "a_b" = "a_b" /\ "c" = "c").
Proof.
  split; [reflexivity|].
  exact (createKey_injective_equal_length "a_b" "c" "a_b" "c" eq_refl).
Defined.

(** ** The batch builder, continued *)

(** Two builders never share a batch: after any calls on the first and
    any calls on the second, in that order, each [Build] returns the
    mutations of its own calls only, updates and deletes each in the
    order they were added. *)
Theorem builders_are_independent (h : heap) (cs1 cs2 : list call) :
  exists h',
    hbind NewListDeltaBatchBuilder (fun b1 =>
    hbind NewListDeltaBatchBuilder (fun b2 =>
    hbind (do_calls b1 cs1) (fun b1' =>
    hbind (do_calls b2 cs2) (fun b2' =>
    hbind (Build b1') (fun p1 =>
    hbind (Build b2') (fun p2 =>
    hbind (load_batch p1) (fun pb1 =>
    hbind (load_batch p2) (fun pb2 =>
    hret (pb1, pb2))))))))) h =
    Some ((mkBatch (calls_deletes cs1) (calls_updates cs1),
           mkBatch (calls_deletes cs2) (calls_updates cs2)), h').
Proof.
  destruct h as [bs bl].
  unfold hbind at 1. rewrite NewListDeltaBatchBuilder_run. cbn [batches builders].
  unfold hbind at 1. rewrite NewListDeltaBatchBuilder_run. cbn [batches builders].
  assert (length (bs ++ [mkBatch [] []]) = S (length bs)) as Hp2
    by (rewrite length_app; simpl; lia).
  assert (length (bl ++ [mkBuilder (length bs)]) = S (length bl)) as Hb2
    by (rewrite length_app; simpl; lia).
  rewrite Hp2, Hb2.
  set (p1 := length bs) in *. set (b1 := length bl) in *.
  set (h2 := mkHeap ((bs ++ [mkBatch [] []]) ++ [mkBatch [] []])
               ((bl ++ [mkBuilder p1]) ++ [mkBuilder (S p1)])).
  assert (valid_builder h2 b1 p1 (mkBatch [] [])) as Hv1.
  { split; simpl.
    - rewrite lookup_app_l by (rewrite length_app; simpl; lia).
      rewrite lookup_app_r by lia. by rewrite Nat.sub_diag.
    - rewrite lookup_app_l by (rewrite length_app; simpl; lia).
      rewrite lookup_app_r by lia. by rewrite Nat.sub_diag. }
  unfold hbind at 1. rewrite (do_calls_run cs1 h2 b1 p1 _ Hv1).
  cbn [deletes updates app].
  set (pb1 := mkBatch (calls_deletes cs1) (calls_updates cs1)).
  set (h3 := mkHeap (<[p1 := pb1]> (batches h2)) (builders h2)).
  assert (valid_builder h3 (S b1) (S p1) (mkBatch [] [])) as Hv2.
  { split; simpl.
    - rewrite lookup_app_r by lia. rewrite Hb2. by rewrite Nat.sub_diag.
    - rewrite list_lookup_insert_ne by lia.
      rewrite lookup_app_r by lia. rewrite Hp2. by rewrite Nat.sub_diag. }
  unfold hbind at 1. rewrite (do_calls_run cs2 h3 (S b1) (S p1) _ Hv2).
  cbn [deletes updates app].
  set (pb2 := mkBatch (calls_deletes cs2) (calls_updates cs2)).
  set (h4 := mkHeap (<[S p1 := pb2]> (batches h3)) (builders h3)).
  assert (valid_builder h4 b1 p1 pb1) as Hv1'.
  { split; simpl.
    - apply Hv1.
    - rewrite list_lookup_insert_ne by lia.
      apply list_lookup_insert_eq. rewrite !length_app. simpl. lia. }
  assert (valid_builder h4 (S b1) (S p1) pb2) as Hv2'.
  { split; simpl.
    - apply Hv2.
    - apply list_lookup_insert_eq. rewrite length_insert, !length_app.
      simpl. lia. }
  unfold hbind at 1. rewrite (Build_run h4 b1 p1 pb1 Hv1').
  unfold hbind at 1. rewrite (Build_run h4 (S b1) (S p1) pb2 Hv2').
  unfold hbind, load_batch, hret.
  destruct Hv1' as [_ ->]. destruct Hv2' as [_ ->]. by eexists.
Qed.

(** ** Construction of the DAL, continued *)

(** What [NewDAL] makes of its options: of several options of one kind
    the last one counts; the metrics logger of the DAL is never nil (the
    statsd logger stands in); the cluster starts from the bootstrap host
    alone; and the pool of every node takes its maximum of idle
    connections from [MinIdleConnections], its idle timeout and its
    maximum of active connections from the options of the same name. *)
Theorem NewDAL_wires_options (refresh : Cluster -> option error)
    (os : list dal_option) (d : redisDAL) :
  NewDAL refresh (map option_fn os) = Ok d ->
  exists co cl ml,
    supplied_cluster os = Some co /\
    clusterOpts d = Some co /\
    cluster d = Some cl /\
    metricsLogger d = Some ml /\
    ml = default StatsdMetrics (supplied_logger os) /\
    StartupNodes cl = [BoostrapHost co] /\
    pool_metricsLogger (CreatePool cl) = ml /\
    maxIdle (CreatePool cl) = MinIdleConnections co /\
    idleTimeout (CreatePool cl) = ConnectionIdleTimeout co /\
    maxActive (CreatePool cl) = MaxActiveConnections co.
Proof.
  rewrite NewDAL_unfold.
  destruct (supplied_cluster os) as [co|]; [|done].
  destruct (String.eqb (BoostrapHost co) ""); [done|].
  cbv zeta. destruct (refresh _); [done|]. intros [= <-].
  eexists co, _, _. simpl. split_and!; reflexivity.
Qed.

Lemma NewDAL_wires_options_witness :
  exists co cl ml,
    supplied_cluster
      [OptBuffer 7; OptCluster None; OptCluster (Some local_cluster)]
      = Some co /\
    clusterOpts (dal_of_size 7) = Some co /\
    cluster (dal_of_size 7) = Some cl /\
    metricsLogger (dal_of_size 7) = Some ml /\
    ml = StatsdMetrics /\
    StartupNodes cl = [BoostrapHost co] /\
    pool_metricsLogger (CreatePool cl) = ml /\
    maxIdle (CreatePool cl) = MinIdleConnections co /\
    idleTimeout (CreatePool cl) = ConnectionIdleTimeout co /\
    maxActive (CreatePool cl) = MaxActiveConnections co.
Proof.
  exact (NewDAL_wires_options (fun _ => None)
    [OptBuffer 7; OptCluster None; OptCluster (Some local_cluster)]
    (dal_of_size 7) eq_refl).
Defined.

(** * Package migrationfile *)

(** ** Strings *)

Lemma string_length_append (s t : string) :
  String.length (String.append s t) = (String.length s + String.length t)%nat.
Proof. induction s as [|c s IH]; simpl; [done | by rewrite IH]. Qed.

Lemma string_append_cancel_l (s a b : string) :
  String.append s a = String.append s b -> a = b.
Proof.
  induction s as [|c s IH]; simpl; [done|]. intros [= E]. auto.
Qed.

Lemma string_append_cons (x : ascii) (a b : string) :
  String.append (String x a) b = String x (String.append a b).
Proof. reflexivity. Qed.

Lemma string_append_assoc (a b c : string) :
  String.append (String.append a b) c = String.append a (String.append b c).
Proof.
  induction a as [|x a IH]; [done|].
  rewrite !string_append_cons. by rewrite IH.
Qed.

Lemma substring_skip (p t : string) (k n : nat) :
  substring (String.length p + k) n (String.append p t) = substring k n t.
Proof. induction p as [|c p IH]; simpl; [done | exact IH]. Qed.

Lemma substring_whole (t : string) : substring 0 (String.length t) t = t.
Proof. induction t as [|c t IH]; simpl; [done | by rewrite IH]. Qed.

Lemma substring_split (s : string) (n : nat) :
  (n <= String.length s)%nat ->
  s = String.append (substring 0 n s)
        (substring n (String.length s - n) s).
Proof.
  revert n. induction s as [|c s IH]; intros n Hn.
  - simpl in Hn. assert (n = 0%nat) as -> by lia. done.
  - destruct n as [|n]; simpl.
    + by rewrite substring_whole.
    + simpl in Hn. rewrite string_append_cons. f_equal. apply IH. lia.
Qed.

(** [strings.HasSuffix] holds exactly when the string is some string
    followed by the suffix. *)
Lemma HasSuffix_spec (s suffix : string) :
  migrationfile.HasSuffix s suffix = true <->
  exists p, s = String.append p suffix.
Proof.
  unfold migrationfile.HasSuffix. rewrite andb_true_iff, Nat.leb_le.
  rewrite String.eqb_eq. split.
  - intros [Hlen E].
    exists (substring 0 (String.length s - String.length suffix) s).
    pose proof (substring_split s (String.length s - String.length suffix))
      as H.
    replace (String.length s - (String.length s - String.length suffix))%nat
      with (String.length suffix) in H by lia.
    rewrite E in H. apply H. lia.
  - intros [p ->]. rewrite string_length_append. split; [lia|].
    replace (String.length p + String.length suffix - String.length suffix)%nat
      with (String.length p + 0)%nat by lia.
    rewrite substring_skip. apply substring_whole.
Qed.

(** ** [MarkDone] and [DoneProcessing] *)

(** [DoneProcessing] answers true exactly for a file that exists and
    whose content ends with the four bytes [DONE]; a file that cannot be
    read counts as not done. *)
Theorem DoneProcessing_iff (fileName : string) (fs : gmap string string) :
  migrationfile.DoneProcessing fileName fs = true <->
  exists p, fs !! fileName = Some (String.append p "DONE").
Proof.
  unfold migrationfile.DoneProcessing, migrationfile.ReadFile.
  rewrite HasSuffix_spec. unfold migrationfile.DoneProc.
  destruct (fs !! fileName) as [c|].
  - split; intros [p Hp]; exists p; congruence.
  - split; [|intros [p Hp]; done].
    intros [p Hp]. destruct p; discriminate Hp.
Qed.

(** The mark [MarkDone] writes ends with a newline, and [DoneProcessing]
    looks for [DONE] at the very end: a file is not seen as done after a
    successful [MarkDone], whatever it held before; the mark is the only
    change [MarkDone] makes, and no other file is touched. *)
Theorem MarkDone_is_not_seen (fileName : string)
    (fs fs' : gmap string string) :
  migrationfile.MarkDone None fileName fs = (None, fs') ->
  migrationfile.DoneProcessing fileName fs' = false /\
  (exists c, fs !! fileName = Some c /\
     fs' !! fileName = Some (String.append c migrationfile.done_mark)) /\
  (forall other, other ≠ fileName -> fs' !! other = fs !! other).
Proof.
  unfold migrationfile.MarkDone.
  destruct (fs !! fileName) as [c|] eqn:Ec; [|done]. intros [= <-].
  split_and!.
  - unfold migrationfile.DoneProcessing, migrationfile.ReadFile.
    rewrite lookup_insert_eq. unfold migrationfile.HasSuffix.
    rewrite string_length_append.
    replace (String.length c + String.length migrationfile.done_mark
             - String.length migrationfile.DoneProc)%nat
      with (String.length c + 2)%nat by (simpl; lia).
    rewrite substring_skip. simpl. apply andb_false_r.
  - exists c. by rewrite lookup_insert_eq.
  - intros other Hne. by rewrite lookup_insert_ne.
Qed.

Lemma MarkDone_is_not_seen_witness :
  migrationfile.MarkDone None "snow/f.json" {[ "snow/f.json" := "[]" ]} =
    (None, <[ "snow/f.json" :=
                String.append "[]" migrationfile.done_mark ]>
             {[ "snow/f.json" := "[]" ]}) /\
  migrationfile.DoneProcessing "snow/f.json"
    (<[ "snow/f.json" := String.append "[]" migrationfile.done_mark ]>
       {[ "snow/f.json" := "[]" ]}) = false.
Proof.
  split; [reflexivity|].
  exact (proj1 (MarkDone_is_not_seen "snow/f.json"
    {[ "snow/f.json" := "[]" ]} _ eq_refl)).
Defined.

(** [MarkDone] does not create files: on a path that has no file it
    returns an error and changes nothing, and a later [DoneProcessing]
    still answers false. *)
Theorem MarkDone_missing_file (wfail : option error) (fileName : string)
    (fs : gmap string string) :
  fs !! fileName = None ->
  exists e,
    migrationfile.MarkDone wfail fileName fs = (Some e, fs) /\
    migrationfile.DoneProcessing fileName fs = false.
Proof.
  intros Hn. unfold migrationfile.MarkDone, migrationfile.DoneProcessing,
    migrationfile.ReadFile.
  rewrite Hn. eexists. split; reflexivity.
Qed.

Lemma MarkDone_missing_file_witness :
  exists e,
    migrationfile.MarkDone None "snow/none.json" ∅ = (Some e, ∅) /\
    migrationfile.DoneProcessing "snow/none.json" ∅ = false.
Proof.
  exact (MarkDone_missing_file None "snow/none.json" ∅ eq_refl).
Defined.

(** ** File names *)

Lemma has_sep_uint (d : Decimal.uint) :
  has_sep (NilEmpty.string_of_uint d) = false.
Proof. induction d; simpl; done. Qed.

Lemma has_sep_fmt_d (z : Z) : has_sep (migrationfile.fmt_d z) = false.
Proof.
  unfold migrationfile.fmt_d. destruct (Z.to_int z) as [d|d]; simpl.
  - destruct d; simpl; try done; apply has_sep_uint.
  - destruct d; simpl; try done; apply has_sep_uint.
Qed.

Lemma fmt_d_inj (a b : Z) :
  migrationfile.fmt_d a = migrationfile.fmt_d b -> a = b.
Proof.
  unfold migrationfile.fmt_d. intros E. apply DecimalZ.to_int_inj.
  assert (forall z, NilZero.int_of_string
                      (NilZero.string_of_int (Z.to_int z)) =
                    Some (Z.to_int z)) as Hisi.
  { intros z. apply NilZero.isi; destruct z; simpl; try discriminate.
    - intros [= H]. by destruct (Pos.to_uint p) eqn:Ep;
        [pose proof (DecimalPos.Unsigned.to_uint_nonnil p)|..].
    - intros [= H]. by destruct (Pos.to_uint p) eqn:Ep;
        [pose proof (DecimalPos.Unsigned.to_uint_nonnil p)|..]. }
  pose proof (Hisi a) as Ha. rewrite E, Hisi in Ha. by injection Ha.
Qed.

Lemma Sprintf_plain (s f : string) (args : list Z) :
  migrationfile.has_percent s = false ->
  migrationfile.Sprintf (String.append s f) args =
  option_map (String.append s) (migrationfile.Sprintf f args).
Proof.
  induction s as [|c s IH]; intros Hs.
  - change (String.append EmptyString f) with f.
    destruct (migrationfile.Sprintf f args); reflexivity.
  - simpl in Hs. rewrite string_append_cons.
    cbn [migrationfile.Sprintf].
    destruct (Ascii.eqb c "%"); [done|].
    rewrite (IH Hs). destruct (migrationfile.Sprintf f args); reflexivity.
Qed.

Lemma buildFileName_plain (dir prefix : string) (now : nat -> Z) (i : nat) :
  migrationfile.has_percent dir = false ->
  migrationfile.has_percent prefix = false ->
  migrationfile.buildFileName dir prefix [Z.of_nat i; now i] =
  Some (migrationfile.file_name dir prefix now i).
Proof.
  intros Hd Hp. unfold migrationfile.buildFileName,
    migrationfile.fileNameFormat.
  rewrite (Sprintf_plain dir _ _ Hd), (Sprintf_plain prefix _ _ Hp).
  reflexivity.
Qed.

Lemma file_name_inj (dir prefix : string) (now : nat -> Z) (i j : nat) :
  migrationfile.file_name dir prefix now i =
  migrationfile.file_name dir prefix now j -> i = j.
Proof.
  unfold migrationfile.file_name. intros E.
  apply string_append_cancel_l, string_append_cancel_l in E.
  injection E as E.
  apply (createKey_cancel _ _ _ _ (has_sep_fmt_d _) (has_sep_fmt_d _)) in E
    as [E _].
  apply fmt_d_inj in E. lia.
Qed.

(** For a directory and a prefix without the byte ['%'], the name
    [buildFileName] gives the file that starts at index [i] is the
    directory, the prefix, [_], the index in decimal, [_], the clock
    reading in decimal and [.json]; and two such names are equal only for
    equal indexes. *)
Theorem buildFileName_names (dir prefix : string) (i j a b : Z) :
  migrationfile.has_percent dir = false ->
  migrationfile.has_percent prefix = false ->
  migrationfile.buildFileName dir prefix [i; a] =
    Some (String.append dir (String.append prefix
            (String "_" (String.append (migrationfile.fmt_d i)
               (String "_" (String.append (migrationfile.fmt_d a)
                  ".json")))))) /\
  (migrationfile.buildFileName dir prefix [i; a] =
   migrationfile.buildFileName dir prefix [j; b] -> i = j).
Proof.
  intros Hd Hp.
  assert (forall x y,
    migrationfile.buildFileName dir prefix [x; y] =
    Some (String.append dir (String.append prefix
            (String "_" (String.append (migrationfile.fmt_d x)
               (String "_" (String.append (migrationfile.fmt_d y)
                  ".json"))))))) as Hn.
  { intros x y. unfold migrationfile.buildFileName,
      migrationfile.fileNameFormat.
    rewrite (Sprintf_plain dir _ _ Hd), (Sprintf_plain prefix _ _ Hp).
    reflexivity. }
  split; [apply Hn|]. rewrite !Hn. intros [= E].
  apply string_append_cancel_l, string_append_cancel_l in E.
  injection E as E.
  apply (createKey_cancel _ _ _ _ (has_sep_fmt_d _) (has_sep_fmt_d _)) in E
    as [E _].
  by apply fmt_d_inj in E.
Qed.

Lemma buildFileName_names_witness :
  migrationfile.buildFileName migrationfile.DirSnow
    migrationfile.PrefixSnow [200; 1600000000000000000] =
  Some "snow/snow_con_200_1600000000000000000.json".
Proof.
  exact (proj1 (buildFileName_names migrationfile.DirSnow
    migrationfile.PrefixSnow 200 200 1600000000000000000
    1600000000000000000 eq_refl eq_refl)).
Defined.

(** ** Batching *)

Lemma rem_zero_iff (size : Z) (s q r : nat) :
  size <> 0 -> s = Z.abs_nat size -> (1 <= r <= s)%nat ->
  (Z.rem (Z.of_nat (q * s + r)) size =? 0) = bool_decide (r = s).
Proof.
  intros Hs -> Hr.
  rewrite <- (Z.rem_abs_r _ size Hs).
  rewrite Z.rem_mod_nonneg by lia.
  replace (Z.of_nat (q * Z.abs_nat size + r))
    with (Z.of_nat r + Z.of_nat q * Z.abs size) by lia.
  rewrite Z_mod_plus_full.
  case_bool_decide as Hd.
  - subst r. rewrite Zabs2Nat.id_abs, Z_mod_same_full. done.
  - rewrite Z.mod_small by lia. apply Z.eqb_neq. lia.
Qed.

Section batching.
Context {A : Type} (box : A -> migrationfile.record).
Variables (dir prefix : string) (size : Z) (now : nat -> Z).
Hypothesis dir_plain : migrationfile.has_percent dir = false.
Hypothesis prefix_plain : migrationfile.has_percent prefix = false.
Hypothesis size_nonzero : size <> 0.

Local Notation s := (Z.abs_nat size).
Local Notation fname := (migrationfile.file_name dir prefix now).

Lemma batch_s_pos : (1 <= s)%nat.
Proof. lia. Qed.

Lemma fname_mul_inj (j j' : nat) : fname (j * s) = fname (j' * s) -> j = j'.
Proof.
  intros E. apply file_name_inj in E. pose proof batch_s_pos. nia.
Qed.

Lemma batch_loop_from_inv (ids : list A) :
  forall (l : list A) (q r : nat) (key : string)
         (rec : gmap string (list migrationfile.record)),
    drop (q * s + r) ids = l ->
    migrationfile.batch_inv box dir prefix now s ids q r key rec ->
    exists q' r' key' rec',
      migrationfile.batch_loop box dir size prefix now (q * s + r) l
        key rec = migrationfile.Returns rec' /\
      migrationfile.batch_inv box dir prefix now s ids q' r' key' rec' /\
      (q' * s + r' = length ids)%nat.
Proof.
  induction l as [|x l IH]; intros q r key rec Hdrop Hinv.
  - exists q, r, key, rec. split; [done|]. split; [done|].
    destruct Hinv as (_ & Hle & _).
    apply (f_equal length) in Hdrop. rewrite length_drop in Hdrop.
    simpl in Hdrop. lia.
  - destruct Hinv as (Hr & Hle & Hkey & Hfull & Hcur & Hdom & Hsize).
    assert (ids !! (q * s + r)%nat = Some x) as Hx.
    { rewrite <- (Nat.add_0_r (q * s + r)), <- lookup_drop, Hdrop. done. }
    assert (drop (S (q * s + r)) ids = l) as Hdrop'.
    { rewrite (drop_S _ _ _ Hx) in Hdrop. by injection Hdrop. }
    assert (q * s + r < length ids)%nat as Hlt
      by (by eapply lookup_lt_Some).
    cbn [migrationfile.batch_loop].
    destruct (Z.eqb_spec size 0) as [?|_]; [done|].
    rewrite (rem_zero_iff size s q r size_nonzero eq_refl Hr).
    case_bool_decide as Hrs.
    + (* a new file starts *)
      rewrite (buildFileName_plain dir prefix now _ dir_plain prefix_plain).
      assert ((q * s + r)%nat = (S q * s)%nat) as Ei by lia.
      assert (S (q * s + r) = (S q * s + 1)%nat) as Ei' by lia.
      assert (rec !! fname (q * s + r)%nat = None) as Hnone.
      { apply eq_None_not_Some. intros Hs.
        destruct (Hdom _ Hs) as (j & Hj & E). rewrite Ei in E.
        apply fname_mul_inj in E. lia. }
      rewrite Hnone. cbn [default app]. rewrite Ei'.
      apply IH; [by rewrite <- Ei'|].
      split_and!.
      * lia.
      * pose proof batch_s_pos. lia.
      * lia.
      * by rewrite Ei.
      * intros j Hj. rewrite lookup_insert_ne.
        2: { rewrite Ei. intros E. apply fname_mul_inj in E. lia. }
        destruct (decide (j = q)) as [->|Hne].
        -- rewrite <- Hkey, Hcur. unfold migrationfile.chunk.
           by rewrite Hrs.
        -- apply Hfull. lia.
      * rewrite <- Ei, lookup_insert_eq. f_equal.
        rewrite (drop_S _ _ _ Hx). done.
      * intros k Hk. destruct (decide (k = fname (q * s + r)%nat)) as [->|Hne].
        -- exists (S q). split; [lia | by rewrite Ei].
        -- rewrite lookup_insert_ne in Hk by done.
           destruct (Hdom _ Hk) as (j & Hj & E). exists j. split; [lia|done].
      * rewrite map_size_insert_None by done. by rewrite Hsize.
    + (* the current file grows *)
      rewrite Hcur. cbn [default].
      assert (S (q * s + r) = (q * s + S r)%nat) as Ei' by lia.
      rewrite Ei'. apply IH; [by rewrite <- Ei'|].
      split_and!.
      * lia.
      * lia.
      * lia.
      * done.
      * intros j Hj. rewrite lookup_insert_ne; [by apply Hfull|].
        rewrite Hkey. intros E. apply fname_mul_inj in E. lia.
      * rewrite lookup_insert_eq. f_equal.
        rewrite (take_S_r _ _ x) by (by rewrite lookup_drop).
        by rewrite fmap_app.
      * intros k Hk. destruct (decide (k = key)) as [->|Hne].
        -- exists q. split; [lia | done].
        -- rewrite lookup_insert_ne in Hk by done. by apply Hdom.
      * rewrite map_size_insert_Some by (by rewrite Hcur). done.
Qed.

Lemma batch_inv_final (ids : list A) (q r : nat) (key : string)
    (rec : gmap string (list migrationfile.record)) :
  migrationfile.batch_inv box dir prefix now s ids q r key rec ->
  (q * s + r = length ids)%nat ->
  migrationfile.files_are_chunks box dir prefix now s ids rec.
Proof.
  intros (Hr & Hle & Hkey & Hfull & Hcur & Hdom & Hsize) Hend.
  assert (box <$> take r (drop (q * s) ids) =
          box <$> migrationfile.chunk s q ids) as Hlast.
  { unfold migrationfile.chunk. f_equal.
    rewrite !take_ge; [done| |]; rewrite length_drop; lia. }
  assert (forall j, (j <= q)%nat ->
            rec !! fname (j * s) =
            Some (box <$> migrationfile.chunk s j ids)) as Hall.
  { intros j Hj. destruct (decide (j = q)) as [->|Hne].
    - rewrite <- Hkey, Hcur. by rewrite Hlast.
    - apply Hfull. lia. }
  split.
  - intros k v. split.
    + intros Hkv. destruct (Hdom k (mk_is_Some _ _ Hkv)) as (j & Hj & ->).
      exists j. split; [nia|]. split; [done|].
      rewrite (Hall j Hj) in Hkv. by injection Hkv.
    + intros (j & Hj & -> & ->). apply Hall. nia.
  - rewrite Hsize. simpl. nia.
Qed.

Lemma batch_loop_chunks (ids : list A) :
  exists rec,
    migrationfile.batch_loop box dir size prefix now 0 ids "" ∅ =
      migrationfile.Returns rec /\
    (ids = [] -> rec = ∅) /\
    (ids <> [] ->
     migrationfile.files_are_chunks box dir prefix now s ids rec).
Proof.
  destruct ids as [|x l].
  - exists ∅. split; [done|]. split; [done|]. by intros [].
  - cbn [migrationfile.batch_loop].
    destruct (Z.eqb_spec size 0) as [?|_]; [done|].
    assert ((Z.rem (Z.of_nat 0) size =? 0) = true) as ->.
    { change (Z.of_nat 0) with 0. rewrite Z.rem_0_l by done. done. }
    rewrite (buildFileName_plain dir prefix now _ dir_plain prefix_plain).
    rewrite lookup_empty. cbn [default app].
    destruct (batch_loop_from_inv (x :: l) l 0 1
                (migrationfile.file_name dir prefix now 0)
                (<[migrationfile.file_name dir prefix now 0 := [box x]]> ∅))
      as (q' & r' & key' & rec' & Hrun & Hinv & Hend).
    + done.
    + pose proof batch_s_pos. split_and!; simpl; try lia; try done.
      * by rewrite lookup_insert_eq.
      * intros k Hk. exists 0%nat. split; [lia|]. simpl.
        destruct (decide (k = migrationfile.file_name dir prefix now 0))
          as [->|Hne]; [done|].
        rewrite lookup_insert_ne, lookup_empty in Hk by done.
        by destruct Hk.
      * by rewrite map_size_insert_None, map_size_empty
          by apply lookup_empty.
    + exists rec'. split; [exact Hrun|]. split; [done|]. intros _.
      by eapply batch_inv_final.
Qed.
End batching.




(** For a prefix without ['%'] and a size other than 0, each of the three
    batching functions returns, for an empty slice, the empty map, and
    otherwise one file per run of [|size|] records (a negative size
    counts like its absolute value): the file that starts at index
    [j * |size|] is named after that index and holds the records from
    there up to the next start, in order; there is no other file; and
    the number of files is the least [n] with [n * |size|] at least the
    number of records. *)
Theorem batch_files_are_chunks (size : Z) (prefix : string) (now : nat -> Z) :
  migrationfile.has_percent prefix = false -> size <> 0 ->
  (forall ids, exists rec,
     migrationfile.batchUserIDs size prefix now ids =
       migrationfile.Returns rec /\
     (ids = [] -> rec = ∅) /\
     (ids <> [] ->
      migrationfile.files_are_chunks migrationfile.RUserID
        migrationfile.DirUID prefix now (Z.abs_nat size) ids rec)) /\
  (forall d, exists rec,
     migrationfile.batchDynamoContacts size prefix now d =
       migrationfile.Returns rec /\
     (d = [] -> rec = ∅) /\
     (d <> [] ->
      migrationfile.files_are_chunks migrationfile.RDynamoContact
        migrationfile.DirDyn prefix now (Z.abs_nat size) d rec)) /\
  (forall sc, exists rec,
     migrationfile.batchSnowflakeContacts size prefix now sc =
       migrationfile.Returns rec /\
     (sc = [] -> rec = ∅) /\
     (sc <> [] ->
      migrationfile.files_are_chunks migrationfile.RSnowContact
        migrationfile.DirSnow prefix now (Z.abs_nat size) sc rec)).
Proof.
  intros Hp Hs. split_and!; intros l.
  - by apply (batch_loop_chunks migrationfile.RUserID migrationfile.DirUID).
  - by apply (batch_loop_chunks migrationfile.RDynamoContact
                migrationfile.DirDyn).
  - by apply (batch_loop_chunks migrationfile.RSnowContact
                migrationfile.DirSnow).
Qed.

Lemma batch_files_are_chunks_witness :
  exists rec,
    migrationfile.batchUserIDs 2 migrationfile.PrefixUID frozen_clock
      three_users = migrationfile.Returns rec /\
    (three_users <> [] ->
     migrationfile.files_are_chunks migrationfile.RUserID
       migrationfile.DirUID migrationfile.PrefixUID frozen_clock
       (Z.abs_nat 2) three_users rec).
Proof.
  assert (2 <> 0) as H2 by lia.
  destruct (proj1 (batch_files_are_chunks 2 migrationfile.PrefixUID
                     frozen_clock eq_refl H2) three_users)
    as (rec & Hrun & _ & Hchunks).
  exists rec. split; [exact Hrun | exact Hchunks].
Defined.



(** With size 0 the three batching functions return the empty map for an
    empty slice and panic, on the division [i % size], for any other. *)
Theorem batch_size_zero (prefix : string) (now : nat -> Z) :
  (forall ids,
     migrationfile.batchUserIDs 0 prefix now ids =
     match ids with [] => migrationfile.Returns ∅
                  | _ :: _ => migrationfile.Panics end) /\
  (forall d,
     migrationfile.batchDynamoContacts 0 prefix now d =
     match d with [] => migrationfile.Returns ∅
                | _ :: _ => migrationfile.Panics end) /\
  (forall sc,
     migrationfile.batchSnowflakeContacts 0 prefix now sc =
     match sc with [] => migrationfile.Returns ∅
                 | _ :: _ => migrationfile.Panics end).
Proof. split_and!; intros [|x l]; reflexivity. Qed.

(** * Package metrics *)

(** The bucket of a status from 100 to 599 is its hundreds digit followed
    by [xx]; every status from 600 on is counted as [5xx] as well; and a
    status below 100, negative ones included, gets the label [unkown]. *)
Theorem GetBucketForHTTPStatus_buckets (httpStatus : Z) :
  (100 <= httpStatus < 600 ->
   metrics.GetBucketForHTTPStatus httpStatus =
   String.append (migrationfile.fmt_d (httpStatus / 100)) "xx") /\
  (600 <= httpStatus ->
   metrics.GetBucketForHTTPStatus httpStatus = "5xx") /\
  (httpStatus < 100 ->
   metrics.GetBucketForHTTPStatus httpStatus = "unkown").
Proof.
  unfold metrics.GetBucketForHTTPStatus. split_and!; intros H.
  - assert (httpStatus / 100 = 1 \/ httpStatus / 100 = 2 \/
            httpStatus / 100 = 3 \/ httpStatus / 100 = 4 \/
            httpStatus / 100 = 5) as Hq.
    { assert (1 <= httpStatus / 100 < 6); [|lia]. split.
      - apply Z.div_le_lower_bound; lia.
      - apply Z.div_lt_upper_bound; lia. }
    assert (100 * (httpStatus / 100) <= httpStatus
            < 100 * (httpStatus / 100) + 100) as Hb.
    { pose proof (Z.mul_div_le httpStatus 100 ltac:(lia)).
      pose proof (Z.mul_succ_div_gt httpStatus 100 ltac:(lia)). lia. }
    repeat (case_match; rewrite ?Z.leb_le, ?Z.leb_gt in *);
      decompose [or] Hq; clear Hq;
      match goal with E : httpStatus / 100 = _ |- _ => rewrite E in * end;
      try lia; reflexivity.
  - destruct (Z.leb_spec 500 httpStatus); [done | lia].
  - repeat (case_match; rewrite ?Z.leb_le, ?Z.leb_gt in *); try lia.
    reflexivity.
Qed.

Lemma GetBucketForHTTPStatus_buckets_witness :
  100 <= 404 < 600 /\ metrics.GetBucketForHTTPStatus 404 = "4xx".
Proof.
  assert (100 <= 404 < 600) as H by lia. split; [exact H|].
  exact (proj1 (GetBucketForHTTPStatus_buckets 404) H).
Defined.

(** [milliseconds] drops the part of a duration below a millisecond,
    toward zero for negative durations too: the result never has more
    magnitude than the duration, misses it by less than a millisecond,
    has its sign, and is 0 exactly for durations strictly between minus
    one and one millisecond. *)
Theorem milliseconds_truncates (duration : Z) :
  let ms := metrics.milliseconds duration in
  Z.abs (1000000 * ms) <= Z.abs duration /\
  Z.abs (duration - 1000000 * ms) < 1000000 /\
  (0 <= duration -> 0 <= ms) /\
  (duration <= 0 -> ms <= 0) /\
  (ms = 0 <-> -1000000 < duration < 1000000).
Proof.
  cbv zeta. unfold metrics.milliseconds.
  split_and!; [..|split]; Z.to_euclidean_division_equations; lia.
Qed.

(** ** [handleBatch] *)

Section handleBatch.
Context {V : Type}.
Implicit Types (batch : list (metrics.MetricDatum V)).
Implicit Types (m : gmap string (metrics.MetricDatum V)).

Lemma handle_loop_sizes batch m puts puts' m' :
  (size m <= metrics.maxMetricsPerBatch)%nat ->
  Forall (fun p => (1 <= size p <= metrics.maxMetricsPerBatch)%nat) puts ->
  metrics.handle_loop batch m puts = (puts', m') ->
  (size m' <= metrics.maxMetricsPerBatch)%nat /\
  Forall (fun p => (1 <= size p <= metrics.maxMetricsPerBatch)%nat) puts'.
Proof.
  revert m puts. induction batch as [|d batch IH]; intros m puts Hm Hp.
  - by intros [= <- <-].
  - cbn [metrics.handle_loop].
    destruct (m !! metrics.MetricName d) as [old|] eqn:Eold.
    + destruct (Nat.ltb_spec (length (metrics.Values old))
                  metrics.maxValuesPerMetric).
      * apply IH; [|done].
        rewrite map_size_insert_Some by done. done.
      * apply IH.
        -- rewrite map_size_singleton. unfold metrics.maxMetricsPerBatch.
           lia.
        -- apply Forall_app. split; [done|]. constructor; [|done].
           split; [|done].
           destruct (decide (size m = 0)%nat) as [E|]; [|lia].
           apply map_size_empty_inv in E. subst m.
           by rewrite lookup_empty in Eold.
    + destruct (Nat.ltb_spec (size m) metrics.maxMetricsPerBatch).
      * apply IH; [|done].
        rewrite map_size_insert_None by done. lia.
      * apply IH.
        -- rewrite map_size_singleton. unfold metrics.maxMetricsPerBatch.
           lia.
        -- apply Forall_app. split; [done|]. constructor; [|done].
           unfold metrics.maxMetricsPerBatch in *. lia.
Qed.

Lemma handle_loop_progress batch m puts puts' m' :
  metrics.handle_loop batch m puts = (puts', m') ->
  batch <> [] -> (0 < size m')%nat.
Proof.
  revert m puts. induction batch as [|d batch IH]; intros m puts; [done|].
  intros Hrun _. cbn [metrics.handle_loop] in Hrun.
  assert (forall m1 puts1,
    (0 < size m1)%nat ->
    metrics.handle_loop batch m1 puts1 = (puts', m') ->
    (0 < size m')%nat) as Hnext.
  { intros m1 puts1 Hm1 Hrun1. destruct batch as [|d' batch'].
    - by injection Hrun1 as <- <-.
    - by eapply IH. }
  destruct (m !! metrics.MetricName d) as [old|] eqn:Eold.
  - destruct (length (metrics.Values old) <? metrics.maxValuesPerMetric)%nat;
      eapply Hnext; try exact Hrun.
    + rewrite map_size_insert_Some by done.
      destruct (decide (size m = 0)%nat) as [E|]; [|lia].
      apply map_size_empty_inv in E. subst m.
      by rewrite lookup_empty in Eold.
    + rewrite map_size_singleton. lia.
  - destruct (size m <? metrics.maxMetricsPerBatch)%nat;
      eapply Hnext; try exact Hrun.
    + rewrite map_size_insert_None by done. lia.
    + rewrite map_size_singleton. lia.
Qed.

(** Whatever is queued, no call of [put] is empty and none carries
    more than [maxMetricsPerBatch] (20) metrics; an empty batch leads
    to no call, any other to at least one. *)
Theorem handleBatch_put_sizes batch :
  Forall (fun p => (1 <= size p <= metrics.maxMetricsPerBatch)%nat)
    (metrics.handleBatch batch) /\
  (metrics.handleBatch batch = [] <-> batch = []).
Proof.
  unfold metrics.handleBatch.
  destruct (metrics.handle_loop batch ∅ []) as [puts m] eqn:Hrun.
  destruct (handle_loop_sizes batch ∅ [] puts m) as [Hm Hp]; try done.
  { rewrite map_size_empty. unfold metrics.maxMetricsPerBatch. lia. }
  split.
  - destruct (Nat.ltb_spec 0 (size m)); [|done].
    apply Forall_app. split; [done|]. constructor; [lia | done].
  - split.
    + intros Hnil. destruct batch as [|d batch]; [done|]. exfalso.
      assert (0 < size m)%nat as Hpos
        by (by eapply (handle_loop_progress (d :: batch))).
      destruct (Nat.ltb_spec 0 (size m)); [|lia].
      by destruct puts.
    + intros ->. by injection Hrun as <- <-.
Qed.

Lemma handle_loop_values (name : string) batch m puts puts' m' :
  metrics.handle_loop batch m puts = (puts', m') ->
  flat_map (metrics.values_in name) puts' ++ metrics.values_in name m' =
  flat_map (metrics.values_in name) puts ++ metrics.values_in name m
  ++ flat_map (metrics.values_for name) batch.
Proof.
  revert m puts. induction batch as [|d batch IH]; intros m puts.
  - intros [= <- <-]. simpl. by rewrite app_nil_r.
  - cbn [metrics.handle_loop flat_map].
    assert (metrics.values_for name d =
            if decide (metrics.MetricName d = name)
            then metrics.Values d else []) as -> by reflexivity.
    assert (forall d' : metrics.MetricDatum V,
              metrics.values_in name
                ({[metrics.MetricName d := d']}
                   : gmap string (metrics.MetricDatum V)) =
              if decide (metrics.MetricName d = name)
              then metrics.Values d' else []) as Hsingle.
    { intros d'. unfold metrics.values_in.
      destruct (decide (metrics.MetricName d = name)) as [<-|Hne].
      - by rewrite lookup_singleton_eq.
      - by rewrite lookup_singleton_ne. }
    destruct (m !! metrics.MetricName d) as [old|] eqn:Eold.
    + destruct (length (metrics.Values old) <? metrics.maxValuesPerMetric)%nat.
      * intros Hrun. rewrite (IH _ _ Hrun). f_equal.
        rewrite app_assoc. f_equal. unfold metrics.values_in.
        destruct (decide (metrics.MetricName d = name)) as [<-|Hne].
        -- by rewrite lookup_insert_eq, Eold.
        -- rewrite lookup_insert_ne by done. by rewrite app_nil_r.
      * intros Hrun. rewrite (IH _ _ Hrun).
        rewrite flat_map_app. simpl. rewrite app_nil_r, Hsingle.
        by rewrite <- !app_assoc.
    + destruct (size m <? metrics.maxMetricsPerBatch)%nat.
      * intros Hrun. rewrite (IH _ _ Hrun). f_equal.
        rewrite app_assoc. f_equal. unfold metrics.values_in.
        destruct (decide (metrics.MetricName d = name)) as [<-|Hne].
        -- by rewrite lookup_insert_eq, Eold.
        -- rewrite lookup_insert_ne by done. by rewrite app_nil_r.
      * intros Hrun. rewrite (IH _ _ Hrun).
        rewrite flat_map_app. simpl. rewrite app_nil_r, Hsingle.
        by rewrite <- !app_assoc.
Qed.

(** No value is lost, doubled or moved to another metric: for every
    metric name, the values sent under that name, taken over the calls
    of [put] in order, are the values queued under that name, in the
    order they were queued. *)
Theorem handleBatch_keeps_values (name : string) batch :
  flat_map (metrics.values_in name) (metrics.handleBatch batch) =
  flat_map (metrics.values_for name) batch.
Proof.
  unfold metrics.handleBatch.
  destruct (metrics.handle_loop batch ∅ []) as [puts m] eqn:Hrun.
  pose proof (handle_loop_values name batch ∅ [] puts m Hrun) as Hv.
  simpl in Hv. unfold metrics.values_in at 3 in Hv.
  rewrite lookup_empty in Hv. simpl in Hv. rewrite <- Hv.
  destruct (Nat.ltb_spec 0 (size m)).
  - rewrite flat_map_app. simpl. by rewrite app_nil_r.
  - assert (m = ∅) as -> by (apply map_size_empty_inv; lia).
    unfold metrics.values_in. rewrite lookup_empty.
    by rewrite app_nil_r.
Qed.

Lemma handle_loop_value_counts (v : nat) batch m puts puts' m' :
  (1 <= v)%nat ->
  Forall (fun d => (length (metrics.Values d) <= v)%nat) batch ->
  map_Forall (fun _ d => (length (metrics.Values d)
                          <= metrics.maxValuesPerMetric - 1 + v)%nat) m ->
  Forall (map_Forall (fun _ d => (length (metrics.Values d)
                          <= metrics.maxValuesPerMetric - 1 + v)%nat))
    puts ->
  metrics.handle_loop batch m puts = (puts', m') ->
  map_Forall (fun _ d => (length (metrics.Values d)
                          <= metrics.maxValuesPerMetric - 1 + v)%nat) m' /\
  Forall (map_Forall (fun _ d => (length (metrics.Values d)
                          <= metrics.maxValuesPerMetric - 1 + v)%nat))
    puts'.
Proof.
  intros Hv. revert m puts.
  induction batch as [|d batch IH]; intros m puts Hb Hm Hp.
  - by intros [= <- <-].
  - apply Forall_cons in Hb as [Hd Hb]. cbn [metrics.handle_loop].
    assert (map_Forall (fun _ d0 => (length (metrics.Values d0)
              <= metrics.maxValuesPerMetric - 1 + v)%nat)
              ({[metrics.MetricName d := d]}
                 : gmap string (metrics.MetricDatum V))) as Hsingle.
    { apply map_Forall_singleton. unfold metrics.maxValuesPerMetric. lia. }
    destruct (m !! metrics.MetricName d) as [old|] eqn:Eold.
    + destruct (Nat.ltb_spec (length (metrics.Values old))
                  metrics.maxValuesPerMetric).
      * apply IH; [done| |done].
        apply map_Forall_insert_2; [|done]. simpl.
        rewrite length_app. unfold metrics.maxValuesPerMetric in *. lia.
      * apply IH; [done|done|].
        apply Forall_app. split; [done|]. by constructor.
    + destruct (size m <? metrics.maxMetricsPerBatch)%nat.
      * apply IH; [done| |done].
        apply map_Forall_insert_2; [|done].
        unfold metrics.maxValuesPerMetric. lia.
      * apply IH; [done|done|].
        apply Forall_app. split; [done|]. by constructor.
Qed.

(** When every queued datum carries one value, as the data of
    [PutCount] and [PutTimingWithMetadata] do, no datum sent carries
    more than [maxValuesPerMetric] (150) values; in general, with at
    most [v] values per queued datum, a datum sent carries at most
    [149 + v]. *)
Theorem handleBatch_value_counts (v : nat) batch :
  (1 <= v)%nat ->
  Forall (fun d => (length (metrics.Values d) <= v)%nat) batch ->
  forall p name d,
    p ∈ metrics.handleBatch batch -> p !! name = Some d ->
    (length (metrics.Values d) <= 149 + v)%nat /\
    (v = 1%nat ->
     (length (metrics.Values d) <= metrics.maxValuesPerMetric)%nat).
Proof.
  intros Hv Hb p name d Hp Hd. unfold metrics.handleBatch in Hp.
  destruct (metrics.handle_loop batch ∅ []) as [puts m] eqn:Hrun.
  destruct (handle_loop_value_counts v batch ∅ [] puts m Hv Hb)
    as [Hm Hps]; [apply map_Forall_empty | constructor | done |].
  assert (Forall (map_Forall (fun _ d0 => (length (metrics.Values d0)
            <= metrics.maxValuesPerMetric - 1 + v)%nat))
            (puts ++ [m])) as Hall
    by (apply Forall_app; split; [done | by constructor]).
  assert (p ∈ puts ++ [m]) as Hp'.
  { destruct (0 <? size m)%nat; [done|]. apply elem_of_app. by left. }
  rewrite Forall_forall in Hall. specialize (Hall p Hp' name d Hd).
  simpl in Hall. unfold metrics.maxValuesPerMetric in *. lia.
Qed.

(** Two data with the same metric name are sent as one datum: it has
    the values of both, and the unit and the dimensions of the first;
    the dimensions of the second are dropped. *)
Theorem handleBatch_merges_under_first (d1 d2 : metrics.MetricDatum V) :
  metrics.MetricName d1 = metrics.MetricName d2 ->
  (length (metrics.Values d1) < metrics.maxValuesPerMetric)%nat ->
  metrics.handleBatch [d1; d2] =
  [ {[ metrics.MetricName d1 :=
         metrics.mkDatum (metrics.MetricName d1) (metrics.Unit d1)
           (metrics.Values d1 ++ metrics.Values d2)
           (metrics.Dimensions d1) ]} ].
Proof.
  intros Hname Hlen. unfold metrics.handleBatch.
  cbn [metrics.handle_loop]. rewrite lookup_empty, map_size_empty.
  change ((0 <? metrics.maxMetricsPerBatch)%nat) with true. cbv iota.
  rewrite <- Hname, lookup_insert_eq.
  rewrite (proj2 (Nat.ltb_lt _ _) Hlen).
  rewrite insert_insert_eq, insert_empty, map_size_singleton. done.
Qed.
End handleBatch.

Lemma handleBatch_value_counts_witness :
  Forall (fun d : metrics.MetricDatum nat =>
            (length (metrics.Values d) <= 1)%nat)
    [metrics.mkDatum "m" "Count" [1%nat] [];
     metrics.mkDatum "m" "Count" [2%nat] []] /\
  forall p name d,
    p ∈ metrics.handleBatch
          [metrics.mkDatum "m" "Count" [1%nat] [];
           metrics.mkDatum "m" "Count" [2%nat] []] ->
    p !! name = Some d ->
    (length (metrics.Values d) <= 149 + 1)%nat.
Proof.
  assert (Forall (fun d : metrics.MetricDatum nat =>
                    (length (metrics.Values d) <= 1)%nat)
            [metrics.mkDatum "m" "Count" [1%nat] [];
             metrics.mkDatum "m" "Count" [2%nat] []]) as Hall
    by (repeat constructor).
  split; [exact Hall|].
  intros p name d Hp Hd.
  refine (proj1 (handleBatch_value_counts 1
    [metrics.mkDatum "m" "Count" [1%nat] [];
     metrics.mkDatum "m" "Count" [2%nat] []] _ Hall p name d Hp Hd)).
  lia.
Defined.

Lemma handleBatch_merges_under_first_witness :
  metrics.handleBatch
    [metrics.mkDatum "m" "Milliseconds" [7%nat] [("host", "a")];
     metrics.mkDatum "m" "Milliseconds" [9%nat] [("host", "b")]] =
  [ {[ "m" := metrics.mkDatum "m" "Milliseconds" [7%nat; 9%nat]
                [("host", "a")] ]} ].
Proof.
  refine (handleBatch_merges_under_first
    (metrics.mkDatum "m" "Milliseconds" [7%nat] [("host", "a")])
    (metrics.mkDatum "m" "Milliseconds" [9%nat] [("host", "b")]) eq_refl _).
  simpl. unfold metrics.maxValuesPerMetric. lia.
Defined.

(** ** Package logger *)

Lemma last_cons_default {A : Type} (d x : A) (l : list A) :
  default d (last (x :: l)) = default x (last l).
Proof.
  destruct l as [|y l]; [done|].
  change (last (x :: y :: l)) with (last (y :: l)).
  destruct (last (y :: l)) eqn:Hl; [done|].
  by apply last_None in Hl.
Qed.

Lemma last_nonempty_cons (f : logger.DefaultFields -> string)
    (c : string * logger.DefaultFields)
    (calls : list (string * logger.DefaultFields)) (d : string) :
  logger.last_nonempty f (c :: calls) d =
  logger.last_nonempty f calls (if String.eqb (f c.2) "" then d else f c.2).
Proof.
  unfold logger.last_nonempty. simpl map.
  destruct (String.eqb_spec (f c.2) "") as [He|Hne].
  - by rewrite filter_cons_False by (intros H; by apply H).
  - rewrite filter_cons_True by done. apply last_cons_default.
Qed.

Lemma Setups_cons (parse : string -> option logger.Level)
    (c : string * logger.DefaultFields)
    (calls : list (string * logger.DefaultFields)) (st : logger.state) :
  logger.Setups parse (c :: calls) st =
  logger.Setups parse calls (logger.Setup parse c.1 c.2 st).
Proof. done. Qed.

(** The level in force after [Setup] is the one its string names, and
    the info level when the string names none. *)
Lemma Setup_level (parse : string -> option logger.Level) (lvl : string)
    (df : logger.DefaultFields) (st : logger.state) :
  logger.level (logger.Setup parse lvl df st) =
  default logger.InfoLevel (parse lvl).
Proof. unfold logger.Setup. simpl. by destruct (parse lvl). Qed.

(** After any run of [Setup] calls each default field holds the last
    value supplied for it that is not the empty string, and its earlier
    value when there was none: a field cannot be set back to the empty
    string.  The caller report is on afterwards exactly when it was on
    before or one of the calls named the debug level: no later call
    switches it off.  The level is the one the last call named, the info
    level when its string names none. *)
Theorem Setup_history (parse : string -> option logger.Level)
    (calls : list (string * logger.DefaultFields)) (st : logger.state) :
  let st' := logger.Setups parse calls st in
  logger.AppName (logger.defaultFields st') =
    logger.last_nonempty logger.AppName calls
      (logger.AppName (logger.defaultFields st)) /\
  logger.Event (logger.defaultFields st') =
    logger.last_nonempty logger.Event calls
      (logger.Event (logger.defaultFields st)) /\
  logger.Server (logger.defaultFields st') =
    logger.last_nonempty logger.Server calls
      (logger.Server (logger.defaultFields st)) /\
  logger.Version (logger.defaultFields st') =
    logger.last_nonempty logger.Version calls
      (logger.Version (logger.defaultFields st)) /\
  (logger.reportCaller st' = true <->
   logger.reportCaller st = true \/
   Exists (fun c => parse c.1 = Some logger.DebugLevel) calls) /\
  logger.level st' =
    match last calls with
    | Some c => default logger.InfoLevel (parse c.1)
    | None => logger.level st
    end.
Proof.
  revert st. induction calls as [|c calls IH]; intros st; cbv zeta.
  - split_and!; try done. split; [by left|]. intros [H|H]; [done|].
    by apply Exists_nil in H.
  - rewrite Setups_cons. rewrite !last_nonempty_cons.
    destruct (IH (logger.Setup parse c.1 c.2 st))
      as (Ha & He & Hs & Hv & Hr & Hl).
    rewrite Ha, He, Hs, Hv, Hr, Hl. clear IH Ha He Hs Hv Hr Hl.
    split_and!; try done.
    + rewrite Exists_cons.
      unfold logger.Setup, logger.setDefaultFields, logger.setLogLevel.
      cbn [logger.reportCaller].
      destruct (parse c.1) as [[]|]; simpl; naive_solver.
    + destruct calls as [|c' calls]; [apply Setup_level|].
      change (last (c :: c' :: calls)) with (last (c' :: calls)).
      destruct (last (c' :: calls)) eqn:Hl; [done|].
      by apply last_None in Hl.
Qed.

Lemma Value_with_foreign {E : Type}
    (more : list (nat * logger.ctx_value E))
    (ctx : list (logger.ctx_key * logger.ctx_value E)) (name : string) :
  logger.Value (logger.with_foreign more ctx) (logger.ContextKey name) =
  logger.Value ctx (logger.ContextKey name).
Proof.
  revert ctx. induction more as [|kv more IH]; intros ctx; [done|].
  unfold logger.with_foreign in *. simpl. by rewrite IH.
Qed.

(** An entry put on a context is the one read back from it, through any
    number of values that other code has put on top under its own keys
    and whatever the context held before, also another entry; reading
    does not panic then.  Values of other code alone never make an
    entry appear. *)
Theorem EntryFromContext_round_trip {E : Type}
    (ctx : list (logger.ctx_key * logger.ctx_value E)) (entry : E)
    (more : list (nat * logger.ctx_value E)) :
  logger.EntryFromContext
    (logger.with_foreign more (logger.ContextWithEntry ctx entry)) =
    Ok entry /\
  logger.MustGetEntryFromContext
    (logger.with_foreign more (logger.ContextWithEntry ctx entry)) =
    Some entry /\
  logger.EntryFromContext (logger.with_foreign more ctx) =
    logger.EntryFromContext ctx /\
  logger.EntryFromContext (logger.with_foreign more []) =
    Err "log entry not set on context".
Proof.
  unfold logger.MustGetEntryFromContext, logger.EntryFromContext,
    logger.contextLogEntryKey.
  rewrite !Value_with_foreign. by simpl.
Qed.

(** ** The migration driver *)

Lemma putRedis_calls_mutations (n : nat) (clock : nat -> Time) :
  calls_updates (driver.putRedis_calls n clock) =
    map (fun t' =>
           mkWrite (mkDelete "Arthur Dent" "no list id" "no contact id") t')
      (map clock (seq 0 n)) /\
  calls_deletes (driver.putRedis_calls n clock) = [].
Proof.
  unfold driver.putRedis_calls, calls_updates, calls_deletes.
  generalize (seq 0 n). intros l.
  induction l as [|i l [IHu IHd]]; [done|]. simpl. by rewrite IHu, IHd.
Qed.

(** The driver's loop with any number of rounds other than none. *)
Lemma putRedis_n_effect (n : nat) (red : redisDAL)
    (ord : gmap string bool -> list string) (clock : nat -> Time)
    (h : heap) (w : world) :
  key_order ord -> n <> 0%nat ->
  exists res w1,
    driver.putRedis_n n red ord clock h w = Some (res, w1) /\
    (res = Ok tt ->
     db w1 =
       apply_commands
         [ZADD (createKey "Arthur Dent" "no list id")
            (insertScore (clock (n - 1)%nat)) "no contact id";
          ZREMRANGEBYRANK (createKey "Arthur Dent" "no list id")
            (maxSetSize red) (-1)] (db w) /\
     length (sent w1) = (length (sent w) + n + 1)%nat).
Proof.
  intros Ho Hn. unfold driver.putRedis_n.
  destruct (build_batch_run (driver.putRedis_calls n clock) h) as [h' ->].
  destruct (putRedis_calls_mutations n clock) as [-> ->].
  destruct n as [|n]; [done|]. clear Hn.
  rewrite seq_S, map_app. cbn [map plus].
  replace (S n - 1)%nat with n by lia.
  set (b := mkBatch _ _).
  destruct (Put red ord b w) as [res w1] eqn:HP.
  exists res, w1. split; [done|]. intros ->.
  apply Put_Ok_inv in HP as (Hd & Hs & _). subst b.
  unfold put_commands in Hd, Hs.
  rewrite (written_keys_same_member _ _ _ (map clock (seq 0 n)) (clock n))
    in Hd, Hs.
  rewrite (key_order_singleton ord _ Ho) in Hd, Hs.
  cbn [deletes updates map app] in Hd, Hs.
  split.
  - rewrite Hd. rewrite apply_commands_app.
    rewrite apply_commands_updates, apply_updates_same_member.
    done.
  - rewrite Hs. rewrite !length_app, !length_map, length_app, length_map,
      length_seq. simpl. lia.
Qed.

(** [putRedis] does not panic, whatever the builders made before.  When
    its [Put] succeeds, the store is the one that a single update with
    the time of the last round of the loop, followed by the truncation
    of the one list, gives: the 999999 earlier updates leave no trace,
    and 1000001 commands have gone to the server. *)
Theorem putRedis_effect (red : redisDAL)
    (ord : gmap string bool -> list string) (clock : nat -> Time)
    (h : heap) (w : world) :
  key_order ord ->
  exists res w1,
    driver.putRedis red ord clock h w = Some (res, w1) /\
    (res = Ok tt ->
     db w1 =
       apply_commands
         [ZADD (createKey "Arthur Dent" "no list id")
            (insertScore (clock (Z.to_nat 999999))) "no contact id";
          ZREMRANGEBYRANK (createKey "Arthur Dent" "no list id")
            (maxSetSize red) (-1)] (db w) /\
     Z.of_nat (length (sent w1)) = Z.of_nat (length (sent w)) + 1000001).
Proof.
  intros Ho. unfold driver.putRedis.
  assert (Z.of_nat driver.rounds = 1000000) as Hr
    by (unfold driver.rounds; lia).
  revert Hr. generalize driver.rounds. intros n Hr.
  destruct (putRedis_n_effect n red ord clock h w Ho)
    as (res & w1 & Hrun & Hok); [lia|].
  exists res, w1. split; [exact Hrun|]. intros Hres.
  destruct (Hok Hres) as [Hd Hs]. split.
  - rewrite Hd. replace (n - 1)%nat with (Z.to_nat 999999) by lia.
    reflexivity.
  - rewrite Hs. lia.
Qed.

Lemma putRedis_effect_witness :
  exists res w1,
    driver.putRedis (dal_of_size 5) range_keys
      (fun i => mkTime (Z.of_nat i) 0) empty_heap
      (quiet_world three_member_db) = Some (res, w1) /\
    (res = Ok tt ->
     db w1 =
       apply_commands
         [ZADD (createKey "Arthur Dent" "no list id")
            (insertScore (mkTime (Z.of_nat (Z.to_nat 999999)) 0)) "no contact id";
          ZREMRANGEBYRANK (createKey "Arthur Dent" "no list id")
            (maxSetSize (dal_of_size 5)) (-1)] (db (quiet_world three_member_db)) /\
     Z.of_nat (length (sent w1)) =
       Z.of_nat (length (sent (quiet_world three_member_db))) + 1000001).
Proof.
  exact (putRedis_effect (dal_of_size 5) range_keys
           (fun i => mkTime (Z.of_nat i) 0) empty_heap
           (quiet_world three_member_db) key_order_range_keys).
Defined.

(** [new] hands [NewDAL] the default pool sizes with the configured
    address as bootstrap host and no buffer size, so the client it
    returns keeps 100 members per list.  It panics when the address is
    the empty string, the value of [cfg] that nothing has filled in, and
    when the first refresh of the cluster fails. *)
Theorem new_outcome (RedisCredentials : string)
    (refresh : Cluster -> option error) :
  let co := mkOpts 100 50 60000000000 RedisCredentials in
  let cl := new_cluster StatsdMetrics co in
  driver.new RedisCredentials refresh =
    (if String.eqb RedisCredentials "" then None
     else match refresh cl with
          | Some _ => None
          | None => Some (mkDAL (Some StatsdMetrics) 100 (Some cl) (Some co))
          end) /\
  driver.new "" refresh = None.
Proof.
  cbv zeta. unfold driver.new.
  pose proof (fun co => NewDAL_unfold refresh [OptCluster (Some co)]) as HN.
  cbn [map option_fn] in HN. rewrite !HN. clear HN.
  unfold supplied_cluster, supplied_logger, supplied_buffer. simpl.
  split; [|done].
  destruct (String.eqb RedisCredentials ""); [done|].
  by destruct (refresh _).
Qed.
